(** * Bit-serial arithmetic over byte-encoded naturals (binary_adt/binary.py)

    A shallow embedding of the [Bits] class and of the four gate-level
    arithmetic routines [adder], [subtractor], [multiplier] and [divider],
    followed by their correctness proofs.

    Python integers are unbounded, hence [Z]; a [bytes] object is the list of
    its elements; a generator is the list of what it yields; an exception is
    an alternative of [result]. *)

From Stdlib Require Import String DecimalString.
From Stdlib Require Import ZArith List Lia Bool.
Import ListNotations.
Local Open Scope Z_scope.

(** ** The fragments of the Python runtime that the module relies on *)

Module Py.

Inductive exn : Type :=
| ZeroDivisionError
| UnboundLocalError.

Inductive result (A : Type) : Type :=
| Ok (a : A)
| Raise (e : exn).

Arguments Ok {A} a.
Arguments Raise {A} e.

Definition bind {A B : Type} (c : result A) (k : A -> result B) : result B :=
  match c with
  | Ok a => k a
  | Raise e => Raise e
  end.

(** [enumerate(xs, start)] *)
Fixpoint enumerate_from {A : Type} (start : Z) (xs : list A) : list (Z * A) :=
  match xs with
  | [] => []
  | x :: xs' => (start, x) :: enumerate_from (start + 1) xs'
  end.

Definition enumerate {A : Type} (xs : list A) : list (Z * A) :=
  enumerate_from 0 xs.

(** [itertools.zip_longest(xs, ys, fillvalue=fill)] *)
Fixpoint zip_longest {A : Type} (fill : A) (xs ys : list A) : list (A * A) :=
  match xs, ys with
  | [], _ => map (fun y => (fill, y)) ys
  | _, [] => map (fun x => (x, fill)) xs
  | x :: xs', y :: ys' => (x, y) :: zip_longest fill xs' ys'
  end.

(** [range(n)]: empty when [n <= 0]. *)
Definition range (n : Z) : list Z :=
  map Z.of_nat (seq 0 (Z.to_nat n)).

(** [sum(xs)]: left-to-right, starting from 0. *)
Definition sum (xs : list Z) : Z :=
  fold_left Z.add xs 0.

(** A [for] loop whose body may raise. *)
Fixpoint for_in {A S : Type} (xs : list A) (body : S -> A -> result S) (s : S)
  : result S :=
  match xs with
  | [] => Ok s
  | x :: xs' => bind (body s x) (for_in xs' body)
  end.

End Py.

Import Py.

Notation "x <- c ;; k" := (Py.bind c (fun x => k))
  (at level 61, c at next level, right associativity).

(** ** class Bits(bytes) *)

Module Bits.

(** The underlying [bytes] object, least-significant byte first. *)
Definition t : Type := list Z.

Definition CHUNK : Z := 8.

(** The [while value > limit] loop of [how_many_bytes].  Each round shifts
    [value] right by [size >= 1] bits, so [Z.log2 value] rounds always
    suffice (lemma [how_many_bytes_loop_fuel] below). *)
Fixpoint how_many_bytes_loop (fuel : nat) (limit size value l : Z) : Z :=
  if value >? limit then
    match fuel with
    | O => l
    | S fuel' =>
        how_many_bytes_loop fuel' limit size (Z.shiftr value size) (l + 1)
    end
  else l.

Definition how_many_bytes (value size : Z) : Z :=
  let l := 1 in
  let limit := 2 ^ size - 1 in
  how_many_bytes_loop (Z.to_nat (Z.log2 value)) limit size value l.

Definition number_to_bits (n size : Z) : list Z :=
  let length := how_many_bytes n size in
  let mask := 2 ^ size - 1 in
  let offset := fun i => i * size in
  let bit_slice := fun n i =>
    Z.shiftr (Z.land n (Z.shiftl mask (offset i))) (offset i) in
  map (fun i => bit_slice n i) (range length).

(** [Bits(n)].  Every element handed to [bytes.__new__] lies in
    [range(256)] (lemma [new_bytes_range]), so the constructor never
    rejects it. *)
Definition new (n : Z) : t :=
  number_to_bits n CHUNK.

Definition to_number (self : t) : Z :=
  sum (map (fun '(i, byte_) => byte_ * 2 ^ (8 * i)) (enumerate self)).

(** The [while value] loop of [__iter__]: the bits it yields and the final
    [count].  A byte is non-negative, and then [1 + Z.log2 value] rounds
    reach [value = 0]. *)
Fixpoint iter_while (fuel : nat) (value count : Z) : list Z * Z :=
  if value =? 0 then ([], count)
  else
    match fuel with
    | O => ([], count)
    | S fuel' =>
        let '(out, count') :=
          iter_while fuel' (Z.shiftr value 1) (count + 1) in
        (Z.land value 1 :: out, count')
    end.

Definition iter_byte (size last_byte byte_number value : Z) : list Z :=
  let count := 0 in
  let '(out, count) :=
    iter_while (S (Z.to_nat (Z.log2 value))) value count in
  out ++ (if byte_number <? last_byte
          then map (fun _ => 0) (range (size - count))
          else []).

(** [__iter__]: the bits of the number, least significant first. *)
Definition iter (self : t) : list Z :=
  if list_eq_dec Z.eq_dec self [0] then [0]
  else
    let size := CHUNK in
    let last_byte := Z.of_nat (length self) - 1 in
    flat_map (fun '(byte_number, value) =>
                iter_byte size last_byte byte_number value)
             (enumerate self).

(** [__reversed__] *)
Definition reversed (self : t) : list Z :=
  let list_ := iter self in
  rev list_.

(** [__lshift__] *)
Definition lshift (self other : t) : t :=
  new (Z.shiftl (to_number self) (to_number other)).

End Bits.

(** ** The gate and the four circuits *)

Definition fulladder (a b cin : Z) : Z * Z :=
  let sum_ := Z.lxor (Z.lxor a b) cin in
  let cout := Z.lor (Z.land a b) (Z.land cin (Z.lxor a b)) in
  (sum_, cout).

(** Local variables of [adder]; [i] is unbound until the loop has run once. *)
Record adder_state : Type := mk_adder_state {
  ad_acc : Z;
  ad_cout : Z;
  ad_cin : Z;
  ad_i : option Z
}.

Definition adder_step (st : adder_state) (x : Z * (Z * Z)) : adder_state :=
  let '(i, (a, b)) := x in
  let '(sum_, cout) := fulladder a b (ad_cin st) in
  let acc := Z.lor (ad_acc st) (Z.shiftl sum_ i) in
  let cin := cout in
  mk_adder_state acc cout cin (Some i).

Definition adder (n m : Bits.t) : result Z :=
  let st0 := mk_adder_state 0 0 0 None in
  let st := fold_left adder_step
              (enumerate (zip_longest 0 (Bits.iter n) (Bits.iter m))) st0 in
  match ad_i st with
  | None => Raise UnboundLocalError
  | Some i => Ok (Z.lor (ad_acc st) (Z.shiftl (ad_cout st) (i + 1)))
  end.

Definition subtractor_step (inverter : Z) (st : Z * Z) (x : Z * (Z * Z))
  : Z * Z :=
  let '(acc, cout) := st in
  let '(i, (a, b)) := x in
  let b := Z.lxor b inverter in
  let '(sum_, cout) := fulladder a b cout in
  let acc := Z.lor acc (Z.shiftl sum_ i) in
  (acc, cout).

Definition subtractor (n m : Bits.t) : Z :=
  let acc := 0 in
  let cout := 1 in
  let inverter := 1 in
  let '(acc, _) :=
    fold_left (subtractor_step inverter)
      (enumerate (zip_longest 0 (Bits.iter n) (Bits.iter m))) (acc, cout) in
  acc.

Definition multiplier_step (n : Bits.t) (st : Bits.t * Z) (bit : Z)
  : result (Bits.t * Z) :=
  let '(acc, shifter) := st in
  acc <- (if bit =? 1
          then s <- adder acc (Bits.lshift n (Bits.new shifter)) ;;
               Ok (Bits.new s)
          else Ok acc) ;;
  Ok (acc, shifter + 1).

Definition multiplier (n m : Bits.t) : result Z :=
  let acc := Bits.new 0 in
  let shifter := 0 in
  st <- for_in (Bits.iter m) (multiplier_step n) (acc, shifter) ;;
  Ok (Bits.to_number (fst st)).

Definition divider_step (m : Bits.t) (st : Z * Z) (bit : Z) : Z * Z :=
  let '(quo, rem) := st in
  let quo := Z.shiftl quo 1 in
  let rem := Z.shiftl rem 1 in
  let rem := if bit =? 0 then rem else Z.lxor rem (Z.shiftl 1 0) in
  if rem >=? Bits.to_number m
  then
    let rem := subtractor (Bits.new rem) m in
    let quo := Z.lxor quo (Z.shiftl 1 0) in
    (quo, rem)
  else (quo, rem).

Definition divider (n m : Bits.t) : result (Z * Z) :=
  if Bits.to_number m =? 0 then Raise ZeroDivisionError
  else
    let rem := 0 in
    let quo := 0 in
    Ok (fold_left (divider_step m) (Bits.reversed n) (quo, rem)).

(** ** class Byte(Bits) and its wider subclasses *)

Module Byte.

(** The four classes of the family; they differ in [SIZE] only. *)
Inductive cls : Type :=
| Byte
| Word
| Tribyte
| DoubleWord.

Definition SIZE (c : cls) : Z :=
  match c with
  | Byte => 1
  | Word => 2
  | Tribyte => 3
  | DoubleWord => 4
  end.

Definition upper_bound (c : cls) : Z :=
  2 ^ (SIZE c * Bits.CHUNK).

(** [str(n)], the decimal text an f-string interpolates for an integer. *)
Definition str (n : Z) : String.string :=
  DecimalString.NilZero.string_of_int (Z.to_int n).

Inductive raised : Type :=
| ValueError (message : String.string).

(** [__new__]: the range check, then [Bits.__new__]. *)
Definition new (c : cls) (n : Z) : Bits.t + raised :=
  if n >=? upper_bound c
  then inr (ValueError
              (String.append (str n)
                 (String.append ". Byte must be in range(0, "%string
                    (String.append (str (upper_bound c)) ")"%string))))
  else inl (Bits.new n).

End Byte.

(** ** Vocabulary of the specification *)

Definition is_bit (b : Z) : Prop := b = 0 \/ b = 1.

Definition is_byte (b : Z) : Prop := 0 <= b < 256.

(** A position of two zipped bit sequences. *)
Definition bit_pair (p : Z * Z) : Prop := is_bit (fst p) /\ is_bit (snd p).

(** The number denoted by a bit sequence, least significant bit first. *)
Definition bits_value (bs : list Z) : Z :=
  fold_right (fun b v => b + 2 * v) 0 bs.

(** The number denoted by a bit sequence, most significant bit first. *)
Definition bits_value_msb (bs : list Z) : Z :=
  fold_left (fun v b => 2 * v + b) bs 0.

(** The number denoted by a byte sequence, least significant byte first. *)
Definition bytes_value (bs : list Z) : Z :=
  fold_right (fun b v => b + 256 * v) 0 bs.

(** Number of binary digits of a non-negative integer, [int.bit_length]. *)
Definition bit_length (n : Z) : Z :=
  if n =? 0 then 0 else Z.log2 n + 1.

(** ** The module's own test cases, replayed on the embedding *)

Example test_how_many_bytes :
  map (fun v => Bits.how_many_bytes v Bits.CHUNK) [0; 1; 255; 256; 65535; 65536]
  = [1; 1; 1; 2; 2; 3].
Proof. reflexivity. Qed.

Example test_number_to_bits :
  map Bits.new [0; 1; 255; 256; 65535; 65536; 131070]
  = [[0]; [1]; [255]; [0; 1]; [255; 255]; [0; 0; 1]; [254; 255; 1]].
Proof. reflexivity. Qed.

Example test_bits_iter :
  map (fun n => Bits.iter (Bits.new n)) [0; 1; 2; 128; 255; 257; 256]
  = [[0]; [1]; [0; 1]; [0; 0; 0; 0; 0; 0; 0; 1]; [1; 1; 1; 1; 1; 1; 1; 1];
     [1; 0; 0; 0; 0; 0; 0; 0; 1]; [0; 0; 0; 0; 0; 0; 0; 0; 1]].
Proof. reflexivity. Qed.

Example test_bits_iter_131070 :
  Bits.iter (Bits.new 131070) = 0 :: map (fun _ => 1) (range 16).
Proof. reflexivity. Qed.

Example test_reversed_bits :
  map (fun n => Bits.reversed (Bits.new n)) [0; 1; 2; 128; 257; 256]
  = [[0]; [1]; [1; 0]; [1; 0; 0; 0; 0; 0; 0; 0];
     [1; 0; 0; 0; 0; 0; 0; 0; 1]; [1; 0; 0; 0; 0; 0; 0; 0; 0]].
Proof. reflexivity. Qed.

Example test_bits_to_number : Bits.to_number (Bits.new 257) = 257.
Proof. reflexivity. Qed.

Example test_bits_shift_left :
  Bits.lshift (Bits.new 1) (Bits.new 1) = Bits.new 2.
Proof. reflexivity. Qed.

Example test_adder :
  map (fun '(a, b) => adder (Bits.new a) (Bits.new b))
      [(0, 0); (1, 0); (0, 1); (1, 1); (5, 12); (255, 1)]
  = map Ok [0; 1; 1; 2; 17; 256].
Proof. reflexivity. Qed.

Example test_subtractor :
  map (fun '(a, b) => subtractor (Bits.new a) (Bits.new b))
      [(0, 0); (1, 1); (1, 0); (10, 5); (255, 1); (256, 1)]
  = [0; 0; 1; 5; 254; 255].
Proof. reflexivity. Qed.

Example test_multiplier :
  map (fun '(a, b) => multiplier (Bits.new a) (Bits.new b))
      [(0, 0); (1, 0); (0, 1); (1, 1); (2, 3); (127, 2)]
  = map Ok [0; 0; 0; 1; 6; 254].
Proof. reflexivity. Qed.

Example test_divider :
  map (fun '(a, b) => divider (Bits.new a) (Bits.new b))
      [(1, 0); (0, 1); (1, 1); (6, 3); (11, 3); (18, 5); (42, 6); (254, 2);
       (400, 10); (512, 10); (513, 4); (512, 2); (131072, 2); (33554432, 2)]
  = Raise ZeroDivisionError ::
    map Ok [(0, 0); (1, 0); (2, 0); (3, 2); (3, 3); (7, 0); (127, 0);
            (40, 0); (51, 2); (128, 1); (256, 0); (65536, 0); (16777216, 0)].
Proof. vm_compute. reflexivity. Qed.

(** ** Lists of the runtime *)

Section Runtime.

Lemma sum_fold (xs : list Z) (a : Z) :
  fold_left Z.add xs a = a + sum xs.
Proof.
  unfold sum. revert a.
  induction xs as [|x xs IH]; intros a; simpl; [lia|].
  rewrite (IH (a + x)), (IH x). lia.
Qed.

Lemma sum_cons (x : Z) (xs : list Z) : sum (x :: xs) = x + sum xs.
Proof. unfold sum at 1. simpl. apply sum_fold. Qed.

Lemma range_succ (n : Z) :
  0 <= n -> range (1 + n) = 0 :: map Z.succ (range n).
Proof.
  intros H. unfold range.
  replace (Z.to_nat (1 + n)) with (S (Z.to_nat n)) by lia.
  simpl. f_equal.
  rewrite <- seq_shift, !map_map.
  apply map_ext. intros k. lia.
Qed.

Lemma range_nonneg (n i : Z) : In i (range n) -> 0 <= i.
Proof.
  unfold range. rewrite in_map_iff.
  intros (k & <- & _). lia.
Qed.

Lemma length_range (n : Z) : 0 <= n -> Z.of_nat (length (range n)) = n.
Proof.
  intros H. unfold range. rewrite length_map, length_seq. lia.
Qed.

Lemma length_zip_longest {A : Type} (fill : A) (xs ys : list A) :
  length (zip_longest fill xs ys) = Nat.max (length xs) (length ys).
Proof.
  revert ys. induction xs as [|x xs IH]; intros ys.
  - simpl. apply length_map.
  - destruct ys as [|y ys]; simpl.
    + now rewrite length_map.
    + now rewrite IH.
Qed.

End Runtime.

(** ** Bits: the byte encoding of a number *)

Section Encoding.

Lemma log2_shiftr_le (v s : Z) (f : nat) :
  0 < v -> 1 <= s -> Z.log2 v <= Z.of_nat (S f) ->
  Z.log2 (Z.shiftr v s) <= Z.of_nat f.
Proof.
  intros Hv Hs Hf. rewrite Z.log2_shiftr by assumption. lia.
Qed.

Lemma log2_above_255 (v : Z) : 255 < v -> 8 <= Z.log2 v.
Proof.
  intros H. apply Z.log2_le_pow2; [lia|]. change (2 ^ 8) with 256. lia.
Qed.

(** The loop of [how_many_bytes] leaves through its condition, whatever
    the fuel above [Z.log2 value], and counts from [l] upwards. *)
Lemma how_many_bytes_loop_fuel (f1 f2 : nat) (v l1 l2 : Z) :
  0 <= v -> Z.log2 v <= Z.of_nat f1 -> Z.log2 v <= Z.of_nat f2 ->
  Bits.how_many_bytes_loop f1 255 8 v l1 - l1
  = Bits.how_many_bytes_loop f2 255 8 v l2 - l2.
Proof.
  revert f2 v l1 l2.
  induction f1 as [|f1 IH]; intros f2 v l1 l2 Hv H1 H2;
    cbn [Bits.how_many_bytes_loop]; destruct (v >? 255) eqn:E.
  - apply Z.gtb_lt, log2_above_255 in E. lia.
  - destruct f2; cbn [Bits.how_many_bytes_loop]; rewrite E; lia.
  - pose proof (proj1 (Z.gtb_lt _ _) E) as Hgt.
    pose proof (log2_above_255 _ Hgt) as Hlog.
    destruct f2 as [|f2]; [lia|].
    cbn [Bits.how_many_bytes_loop]. rewrite E.
    assert (Hs : 0 <= Z.shiftr v 8) by (apply Z.shiftr_nonneg; lia).
    pose proof (IH f2 (Z.shiftr v 8) (l1 + 1) (l2 + 1) Hs) as IH'.
    assert (Z.log2 (Z.shiftr v 8) <= Z.of_nat f1)
      by (apply log2_shiftr_le; lia).
    assert (Z.log2 (Z.shiftr v 8) <= Z.of_nat f2)
      by (apply log2_shiftr_le; lia).
    lia.
  - destruct f2; cbn [Bits.how_many_bytes_loop]; rewrite E; lia.
Qed.

Lemma how_many_bytes_unfold (n : Z) :
  0 <= n ->
  Bits.how_many_bytes n Bits.CHUNK
  = if n >? 255 then 1 + Bits.how_many_bytes (Z.shiftr n 8) Bits.CHUNK
    else 1.
Proof.
  intros Hn. unfold Bits.how_many_bytes, Bits.CHUNK.
  change (2 ^ 8 - 1) with 255.
  destruct (n >? 255) eqn:E.
  - pose proof (proj1 (Z.gtb_lt _ _) E) as Hgt.
    pose proof (log2_above_255 _ Hgt) as Hlog.
    destruct (Z.to_nat (Z.log2 n)) as [|f] eqn:Ef; [lia|].
    cbn [Bits.how_many_bytes_loop]. rewrite E.
    assert (Hs : 0 <= Z.shiftr n 8) by (apply Z.shiftr_nonneg; lia).
    assert (Hf : Z.log2 (Z.shiftr n 8) <= Z.of_nat f)
      by (apply log2_shiftr_le; lia).
    pose proof (how_many_bytes_loop_fuel f
                  (Z.to_nat (Z.log2 (Z.shiftr n 8)))
                  (Z.shiftr n 8) (1 + 1) 1 Hs Hf) as H.
    pose proof (Z.log2_nonneg (Z.shiftr n 8)). lia.
  - destruct (Z.to_nat (Z.log2 n)); cbn [Bits.how_many_bytes_loop];
      rewrite E; reflexivity.
Qed.

Lemma how_many_bytes_small (n : Z) :
  n <= 255 -> Bits.how_many_bytes n Bits.CHUNK = 1.
Proof.
  intros Hn. unfold Bits.how_many_bytes, Bits.CHUNK.
  change (2 ^ 8 - 1) with 255.
  assert (E : (n >? 255) = false) by (rewrite Z.gtb_ltb; apply Z.ltb_ge; lia).
  destruct (Z.to_nat (Z.log2 n)); cbn [Bits.how_many_bytes_loop];
    rewrite E; reflexivity.
Qed.

Lemma how_many_bytes_pos (n : Z) : 1 <= Bits.how_many_bytes n Bits.CHUNK.
Proof.
  destruct (Z.le_gt_cases n 255) as [H|H].
  - rewrite how_many_bytes_small by assumption. lia.
  - assert (Hn : 0 <= n) by lia. revert H.
    pattern n. apply Zlt_0_ind; [|assumption].
    clear n Hn. intros n IH Hn Hgt.
    rewrite how_many_bytes_unfold by assumption.
    assert (E : (n >? 255) = true) by (apply Z.gtb_lt; lia). rewrite E.
    destruct (Z.le_gt_cases (Z.shiftr n 8) 255) as [H|H].
    + rewrite how_many_bytes_small by assumption. lia.
    + assert (0 <= Z.shiftr n 8 < n); [|specialize (IH (Z.shiftr n 8)); lia].
      rewrite Z.shiftr_div_pow2 by lia. change (2 ^ 8) with 256.
      split; [apply Z.div_pos; lia | apply Z.div_lt; lia].
Qed.

(** What [bit_slice] extracts: byte [i] of [n]. *)
Lemma bit_slice_eq (n i : Z) :
  0 <= i ->
  Z.shiftr (Z.land n (Z.shiftl (2 ^ 8 - 1) (i * 8))) (i * 8)
  = Z.land (Z.shiftr n (i * 8)) 255.
Proof.
  intros Hi.
  rewrite Z.shiftr_land, Z.shiftr_shiftl_l by lia.
  rewrite Z.sub_diag, Z.shiftl_0_r. reflexivity.
Qed.

Lemma land_255 (x : Z) : Z.land x 255 = x mod 256.
Proof. change 255 with (Z.ones 8). now rewrite Z.land_ones by lia. Qed.

Lemma new_eq (n : Z) :
  Bits.new n
  = map (fun i => Z.land (Z.shiftr n (i * 8)) 255)
        (range (Bits.how_many_bytes n Bits.CHUNK)).
Proof.
  unfold Bits.new, Bits.number_to_bits.
  apply map_ext_in. intros i Hi. apply range_nonneg in Hi.
  unfold Bits.CHUNK at 1 2 3. now apply bit_slice_eq.
Qed.

(** [Bits(n)] in recursive form: the low byte, then the rest. *)
Lemma new_unfold (n : Z) :
  0 <= n ->
  Bits.new n
  = if n >? 255 then n mod 256 :: Bits.new (n / 256) else [n].
Proof.
  intros Hn. rewrite new_eq, how_many_bytes_unfold by assumption.
  destruct (n >? 255) eqn:E.
  - rewrite range_succ
      by (pose proof (how_many_bytes_pos (Z.shiftr n 8)); lia).
    cbn [map]. rewrite Z.mul_0_l, Z.shiftr_0_r, land_255. f_equal.
    rewrite map_map, new_eq.
    replace (n / 256) with (Z.shiftr n 8)
      by (rewrite Z.shiftr_div_pow2 by lia; reflexivity).
    apply map_ext_in. intros i Hi. apply range_nonneg in Hi.
    rewrite Z.shiftr_shiftr by lia. do 2 f_equal. lia.
  - change (range 1) with [0]. cbn [map].
    rewrite Z.mul_0_l, Z.shiftr_0_r, land_255.
    rewrite Z.gtb_ltb in E. apply Z.ltb_ge in E.
    now rewrite Z.mod_small by lia.
Qed.

(** Induction on the base-256 digits of a number. *)
Lemma base256_ind (P : Z -> Prop) :
  (forall n, 0 <= n <= 255 -> P n) ->
  (forall n, 255 < n -> P (n / 256) -> P n) ->
  forall n, 0 <= n -> P n.
Proof.
  intros Hbase Hstep. apply Zlt_0_ind. intros n IH Hn.
  destruct (Z.le_gt_cases n 255) as [H|H].
  - apply Hbase. lia.
  - apply Hstep; [assumption|]. apply IH.
    split; [apply Z.div_pos; lia | apply Z.div_lt; lia].
Qed.

Lemma new_small (n : Z) : 0 <= n <= 255 -> Bits.new n = [n].
Proof.
  intros H. rewrite new_unfold by lia.
  assert (E : (n >? 255) = false) by (rewrite Z.gtb_ltb; apply Z.ltb_ge; lia).
  now rewrite E.
Qed.

Lemma new_large (n : Z) :
  255 < n -> Bits.new n = n mod 256 :: Bits.new (n / 256).
Proof.
  intros H. rewrite new_unfold by lia.
  assert (E : (n >? 255) = true) by (apply Z.gtb_lt; lia).
  now rewrite E.
Qed.

(** Every element of [Bits(n)] fits a byte, for any integer [n]. *)
Lemma new_bytes_range (n : Z) : Forall is_byte (Bits.new n).
Proof.
  rewrite new_eq. apply Forall_forall. intros b Hb.
  apply in_map_iff in Hb. destruct Hb as (i & <- & _).
  rewrite land_255. unfold is_byte. apply Z.mod_pos_bound. lia.
Qed.

Lemma new_nonempty (n : Z) : Bits.new n <> [].
Proof.
  rewrite new_eq. pose proof (how_many_bytes_pos n) as H.
  replace (Bits.how_many_bytes n Bits.CHUNK)
    with (1 + (Bits.how_many_bytes n Bits.CHUNK - 1)) by lia.
  rewrite range_succ by lia. discriminate.
Qed.

(** [to_number] is the little-endian base-256 value. *)
Lemma to_number_from (k : Z) (bs : list Z) :
  0 <= k ->
  sum (map (fun '(i, byte_) => byte_ * 2 ^ (8 * i)) (enumerate_from k bs))
  = 2 ^ (8 * k) * bytes_value bs.
Proof.
  revert k. induction bs as [|b bs IH]; intros k Hk.
  - cbn. lia.
  - cbn [enumerate_from map bytes_value fold_right].
    rewrite sum_cons, IH by lia. fold (bytes_value bs).
    replace (8 * (k + 1)) with (8 * k + 8) by lia.
    rewrite Z.pow_add_r by lia. change (2 ^ 8) with 256. lia.
Qed.

Lemma to_number_value (bs : list Z) : Bits.to_number bs = bytes_value bs.
Proof.
  unfold Bits.to_number, enumerate. rewrite to_number_from by lia.
  change (2 ^ (8 * 0)) with 1. lia.
Qed.

Lemma bytes_value_new (n : Z) : 0 <= n -> bytes_value (Bits.new n) = n.
Proof.
  revert n. apply base256_ind.
  - intros n Hn. rewrite new_small by assumption. cbn. lia.
  - intros n Hn IH. rewrite new_large by assumption.
    cbn [bytes_value fold_right]. fold (bytes_value (Bits.new (n / 256))).
    rewrite IH. pose proof (Z.div_mod n 256). lia.
Qed.

Lemma to_number_new (n : Z) : 0 <= n -> Bits.to_number (Bits.new n) = n.
Proof. intros Hn. rewrite to_number_value. now apply bytes_value_new. Qed.

End Encoding.

(** ** Bits: the bit view *)

Section BitView.

Lemma bits_value_cons (b : Z) (bs : list Z) :
  bits_value (b :: bs) = b + 2 * bits_value bs.
Proof. reflexivity. Qed.

Lemma bits_value_app (xs ys : list Z) :
  bits_value (xs ++ ys)
  = bits_value xs + 2 ^ Z.of_nat (length xs) * bits_value ys.
Proof.
  induction xs as [|x xs IH].
  - cbn [app length]. change (2 ^ Z.of_nat 0) with 1.
    change (bits_value []) with 0. lia.
  - cbn [app length]. rewrite !bits_value_cons, IH, Nat2Z.inj_succ.
    rewrite Z.pow_succ_r by lia. lia.
Qed.

Lemma bits_value_zeros {A : Type} (xs : list A) :
  bits_value (map (fun _ => 0) xs) = 0.
Proof.
  induction xs as [|x xs IH]; [reflexivity|].
  cbn [map]. rewrite bits_value_cons, IH. reflexivity.
Qed.

Lemma Forall_bit_zeros {A : Type} (xs : list A) :
  Forall is_bit (map (fun _ => 0) xs).
Proof.
  induction xs; cbn [map]; constructor; [left; reflexivity | assumption].
Qed.

Lemma bits_value_bound (bs : list Z) :
  Forall is_bit bs -> 0 <= bits_value bs < 2 ^ Z.of_nat (length bs).
Proof.
  induction 1 as [|b bs Hb _ IH].
  - cbn. lia.
  - cbn [length]. rewrite bits_value_cons, Nat2Z.inj_succ.
    rewrite Z.pow_succ_r by lia. destruct Hb; subst; lia.
Qed.

Lemma bit_length_nonneg (v : Z) : 0 <= bit_length v.
Proof.
  unfold bit_length. pose proof (Z.log2_nonneg v).
  destruct (v =? 0); lia.
Qed.

Lemma bit_length_pos (v : Z) : 0 < v -> bit_length v = Z.log2 v + 1.
Proof.
  intros H. unfold bit_length.
  destruct (Z.eqb_spec v 0); [lia | reflexivity].
Qed.

Lemma bit_length_shiftr (v s : Z) :
  0 <= s -> 2 ^ s <= v -> bit_length (Z.shiftr v s) = bit_length v - s.
Proof.
  intros Hs Hv.
  assert (Hp : 0 < 2 ^ s) by (apply Z.pow_pos_nonneg; lia).
  assert (Hq : 0 < Z.shiftr v s).
  { rewrite Z.shiftr_div_pow2 by lia. apply Z.div_str_pos. lia. }
  rewrite !bit_length_pos by lia.
  rewrite Z.log2_shiftr by lia.
  assert (s <= Z.log2 v) by (apply Z.log2_le_pow2; lia). lia.
Qed.

Lemma bit_length_le (v k : Z) :
  0 <= v -> 0 <= k -> v < 2 ^ k -> bit_length v <= k.
Proof.
  intros Hv Hk H. unfold bit_length.
  destruct (Z.eqb_spec v 0); [lia|].
  assert (Z.log2 v < k) by (apply Z.log2_lt_pow2; lia). lia.
Qed.

Lemma land_1 (v : Z) : Z.land v 1 = v mod 2.
Proof. change 1 with (Z.ones 1) at 1. now rewrite Z.land_ones by lia. Qed.

Lemma bit_length_half (v : Z) :
  0 < v -> bit_length (Z.shiftr v 1) = bit_length v - 1.
Proof.
  intros Hv. destruct (Z.eq_dec v 1) as [->|]; [reflexivity|].
  apply bit_length_shiftr; [lia|]. change (2 ^ 1) with 2. lia.
Qed.

(** The inner loop of [__iter__] leaves through its condition, whatever the
    fuel above the bit length of a non-negative [value]. *)
Lemma iter_while_fuel (f1 f2 : nat) (v c : Z) :
  0 <= v -> bit_length v <= Z.of_nat f1 -> bit_length v <= Z.of_nat f2 ->
  Bits.iter_while f1 v c = Bits.iter_while f2 v c.
Proof.
  revert f2 v c. induction f1 as [|f1 IH]; intros f2 v c Hv H1 H2;
    destruct f2 as [|f2]; cbn [Bits.iter_while];
    destruct (Z.eqb_spec v 0) as [->|Hnz]; try reflexivity;
    try (rewrite bit_length_pos in H1, H2 by lia;
         pose proof (Z.log2_nonneg v); lia).
  pose proof (bit_length_half v ltac:(lia)) as Hh.
  rewrite (IH f2 (Z.shiftr v 1) (c + 1)); [reflexivity | | lia | lia].
  apply Z.shiftr_nonneg. lia.
Qed.

(** The inner loop of [__iter__] yields the binary digits of a
    non-negative [value], none of them a leading zero, and counts them. *)
Lemma iter_while_spec (fuel : nat) (v c : Z) :
  0 <= v -> bit_length v <= Z.of_nat fuel ->
  exists out,
    Bits.iter_while fuel v c = (out, c + Z.of_nat (length out))
    /\ Forall is_bit out
    /\ bits_value out = v
    /\ Z.of_nat (length out) = bit_length v.
Proof.
  revert v c. induction fuel as [|fuel IH]; intros v c Hv Hf;
    cbn [Bits.iter_while]; destruct (Z.eqb_spec v 0) as [->|Hnz].
  - exists []. cbn. repeat split; [f_equal; lia | constructor].
  - rewrite bit_length_pos in Hf by lia. pose proof (Z.log2_nonneg v). lia.
  - exists []. cbn. repeat split; [f_equal; lia | constructor].
  - assert (Hhalf : Z.shiftr v 1 = v / 2)
      by (rewrite Z.shiftr_div_pow2 by lia; reflexivity).
    pose proof (bit_length_half v ltac:(lia)) as Hlen.
    destruct (IH (Z.shiftr v 1) (c + 1)) as (out & Heq & Hbits & Hval & Hl).
    + rewrite Hhalf. apply Z.div_pos; lia.
    + lia.
    + rewrite Heq. exists (Z.land v 1 :: out).
      pose proof (Z.mod_pos_bound v 2 ltac:(lia)) as Hm.
      pose proof (Z.div_mod v 2 ltac:(lia)) as Hd.
      cbn [length]. rewrite Nat2Z.inj_succ, bits_value_cons, Hval, land_1.
      repeat split.
      * f_equal. lia.
      * constructor; [unfold is_bit; lia | assumption].
      * lia.
      * lia.
Qed.

Lemma iter_byte_spec (last k v : Z) :
  is_byte v ->
  Forall is_bit (Bits.iter_byte Bits.CHUNK last k v)
  /\ bits_value (Bits.iter_byte Bits.CHUNK last k v) = v
  /\ Z.of_nat (length (Bits.iter_byte Bits.CHUNK last k v))
     = if k <? last then 8 else bit_length v.
Proof.
  intros [Hv0 Hv1]. unfold Bits.iter_byte.
  destruct (iter_while_spec (S (Z.to_nat (Z.log2 v))) v 0)
    as (out & Heq & Hbits & Hval & Hl); [assumption | |].
  { unfold bit_length. pose proof (Z.log2_nonneg v).
    destruct (v =? 0); lia. }
  rewrite Heq.
  assert (Hle : bit_length v <= 8)
    by (apply bit_length_le; [lia | lia | change (2 ^ 8) with 256; lia]).
  destruct (k <? last).
  - repeat split.
    + apply Forall_app. split; [assumption | apply Forall_bit_zeros].
    + rewrite bits_value_app, bits_value_zeros. lia.
    + rewrite length_app, length_map, Nat2Z.inj_add.
      rewrite length_range by (unfold Bits.CHUNK; lia).
      unfold Bits.CHUNK. lia.
  - rewrite app_nil_r. repeat split; assumption.
Qed.

Lemma iter_from_spec (bs : list Z) (k last : Z) :
  Forall is_byte bs -> bs <> [] ->
  last = k + Z.of_nat (length bs) - 1 ->
  let r := flat_map (fun '(byte_number, value) =>
                       Bits.iter_byte Bits.CHUNK last byte_number value)
                    (enumerate_from k bs) in
  Forall is_bit r
  /\ bits_value r = bytes_value bs
  /\ Z.of_nat (length r)
     = 8 * (Z.of_nat (length bs) - 1) + bit_length (List.last bs 0).
Proof.
  intros Hbytes. revert k.
  induction Hbytes as [|b bs Hb Hbs IH]; intros k Hne Hlast r;
    [congruence|].
  subst r. cbn [enumerate_from flat_map].
  destruct (iter_byte_spec last k b Hb) as (Hbit & Hval & Hlen).
  destruct bs as [|b' bs'].
  - cbn [enumerate_from flat_map]. rewrite app_nil_r.
    cbn [length] in Hlast.
    assert (E : (k <? last) = false) by (apply Z.ltb_ge; lia).
    rewrite E in Hlen. cbn [length List.last].
    repeat split; [assumption | cbn; lia | lia].
  - cbn [length] in Hlast.
    assert (E : (k <? last) = true) by (apply Z.ltb_lt; lia).
    rewrite E in Hlen.
    destruct (IH (k + 1)) as (Hbit' & Hval' & Hlen');
      [discriminate | cbn [length]; lia |].
    repeat split.
    + apply Forall_app. split; assumption.
    + rewrite bits_value_app, Hval, Hlen, Hval'.
      change (2 ^ 8) with 256. reflexivity.
    + rewrite length_app, Nat2Z.inj_add, Hlen, Hlen'.
      change (List.last (b :: b' :: bs') 0) with (List.last (b' :: bs') 0).
      cbn [length]. lia.
Qed.

(** The bit view of any well-formed [bytes] object. *)
Lemma iter_spec (bs : list Z) :
  Forall is_byte bs -> bs <> [] ->
  Forall is_bit (Bits.iter bs)
  /\ bits_value (Bits.iter bs) = Bits.to_number bs
  /\ Z.of_nat (length (Bits.iter bs))
     = if list_eq_dec Z.eq_dec bs [0] then 1
       else 8 * (Z.of_nat (length bs) - 1) + bit_length (List.last bs 0).
Proof.
  intros Hbytes Hne. rewrite to_number_value. unfold Bits.iter.
  destruct (list_eq_dec Z.eq_dec bs [0]) as [->|_].
  - repeat split. constructor; [left; reflexivity | constructor].
  - apply iter_from_spec; [assumption | assumption | lia].
Qed.

Lemma new_zero_iff (n : Z) : 0 <= n -> Bits.new n = [0] <-> n = 0.
Proof.
  intros Hn. split; [|intros ->; reflexivity].
  intros H. apply (f_equal Bits.to_number) in H.
  rewrite to_number_new in H by assumption. exact H.
Qed.

Lemma new_shape (n : Z) :
  0 <= n ->
  8 * (Z.of_nat (length (Bits.new n)) - 1)
  + bit_length (List.last (Bits.new n) 0)
  = bit_length n.
Proof.
  revert n. apply base256_ind.
  - intros n Hn. rewrite new_small by assumption. cbn [length List.last]. lia.
  - intros n Hn IH. rewrite new_large by assumption.
    pose proof (new_nonempty (n / 256)) as Hne.
    destruct (Bits.new (n / 256)) as [|b bs] eqn:E; [congruence|].
    change (List.last (n mod 256 :: b :: bs) 0) with (List.last (b :: bs) 0).
    cbn [length] in *.
    replace (n / 256) with (Z.shiftr n 8) in IH
      by (rewrite Z.shiftr_div_pow2 by lia; reflexivity).
    rewrite bit_length_shiftr in IH
      by (try change (2 ^ 8) with 256; lia).
    lia.
Qed.

(** The four facts about the bit view of [Bits(n)] on which the circuits
    rest. *)
Lemma iter_new_bits (n : Z) : Forall is_bit (Bits.iter (Bits.new n)).
Proof. apply iter_spec; [apply new_bytes_range | apply new_nonempty]. Qed.

Lemma iter_new_value (n : Z) :
  0 <= n -> bits_value (Bits.iter (Bits.new n)) = n.
Proof.
  intros Hn.
  destruct (iter_spec (Bits.new n)) as (_ & H & _);
    [apply new_bytes_range | apply new_nonempty |].
  now rewrite H, to_number_new.
Qed.

Lemma iter_new_length (n : Z) :
  0 <= n ->
  Z.of_nat (length (Bits.iter (Bits.new n)))
  = if n =? 0 then 1 else Z.log2 n + 1.
Proof.
  intros Hn.
  destruct (iter_spec (Bits.new n)) as (_ & _ & H);
    [apply new_bytes_range | apply new_nonempty |].
  rewrite H. destruct (list_eq_dec Z.eq_dec (Bits.new n) [0]) as [E|E].
  - apply new_zero_iff in E; [subst; reflexivity | assumption].
  - rewrite new_shape by assumption.
    destruct (Z.eqb_spec n 0) as [->|Hnz]; [now elim E|].
    apply bit_length_pos. lia.
Qed.

Lemma iter_new_nonempty (n : Z) : 0 <= n -> Bits.iter (Bits.new n) <> [].
Proof.
  intros Hn E. pose proof (iter_new_length n Hn) as H.
  rewrite E in H. cbn [length] in H. pose proof (Z.log2_nonneg n).
  destruct (n =? 0); lia.
Qed.

End BitView.

(** ** The ripple-carry loops *)

Section Ripple.

Lemma fulladder_spec (a b c : Z) :
  is_bit a -> is_bit b -> is_bit c ->
  fulladder a b c = ((a + b + c) mod 2, (a + b + c) / 2).
Proof.
  intros [-> | ->] [-> | ->] [-> | ->]; reflexivity.
Qed.

Lemma lxor_1_bit (b : Z) : is_bit b -> Z.lxor b 1 = 1 - b.
Proof. intros [-> | ->]; reflexivity. Qed.

Lemma land_pow2_small (acc i : Z) :
  0 <= i -> 0 <= acc < 2 ^ i -> Z.land acc (2 ^ i) = 0.
Proof.
  intros Hi Hacc. apply Z.bits_inj'. intros n Hn.
  rewrite Z.land_spec, Z.bits_0, Z.pow2_bits_eqb by assumption.
  destruct (Z.eqb_spec i n) as [<-|_]; [|apply andb_false_r].
  rewrite andb_true_r.
  destruct (Z.eq_dec acc 0) as [->|Hnz]; [apply Z.bits_0|].
  apply Z.bits_above_log2; [lia|]. apply Z.log2_lt_pow2; lia.
Qed.

(** Or-ing a bit in above the accumulator is adding it. *)
Lemma lor_shiftl_bit (acc s i : Z) :
  0 <= i -> 0 <= acc < 2 ^ i -> is_bit s ->
  Z.lor acc (Z.shiftl s i) = acc + s * 2 ^ i.
Proof.
  intros Hi Hacc [-> | ->].
  - rewrite Z.shiftl_0_l, Z.lor_0_r. lia.
  - rewrite Z.shiftl_1_l.
    pose proof (Z.add_lor_land acc (2 ^ i)) as H.
    rewrite land_pow2_small in H by assumption. lia.
Qed.

Lemma sum_bit_range (a b c : Z) :
  is_bit a -> is_bit b -> is_bit c ->
  is_bit ((a + b + c) mod 2) /\ is_bit ((a + b + c) / 2).
Proof.
  intros [-> | ->] [-> | ->] [-> | ->]; split; (now left) || (now right).
Qed.

Lemma zip_longest_fst (xs ys : list Z) :
  bits_value (map fst (zip_longest 0 xs ys)) = bits_value xs.
Proof.
  revert ys. induction xs as [|x xs IH]; intros ys.
  - cbn [zip_longest]. rewrite map_map. cbn [fst]. apply bits_value_zeros.
  - destruct ys as [|y ys]; cbn [zip_longest map fst].
    + rewrite map_map. cbn [fst]. now rewrite map_id.
    + rewrite !bits_value_cons, IH. reflexivity.
Qed.

Lemma zip_longest_snd (xs ys : list Z) :
  bits_value (map snd (zip_longest 0 xs ys)) = bits_value ys.
Proof.
  revert ys. induction xs as [|x xs IH]; intros ys.
  - cbn [zip_longest]. rewrite map_map. cbn [snd]. now rewrite map_id.
  - destruct ys as [|y ys]; cbn [zip_longest map snd].
    + rewrite map_map. cbn [snd].
      now rewrite !bits_value_cons, bits_value_zeros.
    + rewrite !bits_value_cons, IH. reflexivity.
Qed.

Lemma zip_longest_bits (xs ys : list Z) :
  Forall is_bit xs -> Forall is_bit ys ->
  Forall bit_pair (zip_longest 0 xs ys).
Proof.
  intros Hx. revert ys. induction Hx as [|x xs Hx Hxs IH]; intros ys Hy.
  - cbn [zip_longest]. induction Hy; cbn [map]; constructor;
      [split; [now left | assumption] | assumption].
  - destruct Hy as [|y ys Hy Hys]; cbn [zip_longest map].
    + constructor; [split; [assumption | now left]|].
      clear IH. induction Hxs; cbn [map]; constructor;
        [split; [assumption | now left] | assumption].
    + constructor; [split; assumption | now apply IH].
Qed.

(** Invariant of the loop of [adder], started at bit position [k]. *)
Lemma adder_loop (zs : list (Z * Z)) :
  forall (k : Z) (st : adder_state),
    Forall bit_pair zs -> 0 <= k ->
    0 <= ad_acc st < 2 ^ k -> is_bit (ad_cin st) -> ad_cout st = ad_cin st ->
    let st' := fold_left adder_step (enumerate_from k zs) st in
    let n := Z.of_nat (length zs) in
    0 <= ad_acc st' < 2 ^ (k + n)
    /\ is_bit (ad_cout st')
    /\ ad_cin st' = ad_cout st'
    /\ ad_acc st' + 2 ^ (k + n) * ad_cout st'
       = ad_acc st
         + 2 ^ k * (ad_cin st + bits_value (map fst zs)
                    + bits_value (map snd zs))
    /\ (zs <> [] -> ad_i st' = Some (k + n - 1)).
Proof.
  induction zs as [|[a b] zs IH]; intros k st Hz Hk Hacc Hcin Hcc.
  - cbn [enumerate_from fold_left length map].
    change (bits_value []) with 0. rewrite Z.add_0_r.
    repeat split; try lia; try congruence.
  - inversion Hz as [|? ? [Ha Hb] Hz']; subst. cbn [fst snd] in Ha, Hb.
    cbn [enumerate_from fold_left].
    set (st1 := adder_step st (k, (a, b))).
    assert (Hst1 : st1 = mk_adder_state
              (ad_acc st + (a + b + ad_cin st) mod 2 * 2 ^ k)
              ((a + b + ad_cin st) / 2) ((a + b + ad_cin st) / 2) (Some k)).
    { subst st1. unfold adder_step.
      rewrite fulladder_spec by assumption.
      rewrite lor_shiftl_bit; [reflexivity | lia | lia |].
      now apply sum_bit_range. }
    destruct (sum_bit_range a b (ad_cin st) Ha Hb Hcin) as [Hs Hc].
    assert (Hp : 0 < 2 ^ k) by (apply Z.pow_pos_nonneg; lia).
    assert (Hk1 : 2 ^ (k + 1) = 2 * 2 ^ k)
      by (rewrite Z.pow_add_r by lia; change (2 ^ 1) with 2; lia).
    destruct (IH (k + 1) st1 Hz') as (B & C & E & V & I).
    + lia.
    + rewrite Hst1. cbn [ad_acc]. rewrite Hk1.
      destruct Hs as [-> | ->]; lia.
    + rewrite Hst1. exact Hc.
    + rewrite Hst1. reflexivity.
    + cbn [length map fst snd]. rewrite Nat2Z.inj_succ.
      replace (k + Z.succ (Z.of_nat (length zs)))
        with (k + 1 + Z.of_nat (length zs)) by lia.
      repeat split; try (apply B || exact C || exact E).
      * rewrite V, Hst1. cbn [ad_acc ad_cin]. rewrite !bits_value_cons, Hk1.
        pose proof (Z.div_mod (a + b + ad_cin st) 2 ltac:(lia)). nia.
      * intros _. destruct zs as [|z zs'].
        -- cbn [enumerate_from fold_left length]. rewrite Hst1.
           cbn [ad_i]. f_equal; lia.
        -- rewrite I by discriminate. f_equal; lia.
Qed.

(** Invariant of the loop of [subtractor]: the subtrahend's bits enter
    complemented. *)
Lemma subtractor_loop (zs : list (Z * Z)) :
  forall (k acc cout : Z),
    Forall bit_pair zs -> 0 <= k -> 0 <= acc < 2 ^ k -> is_bit cout ->
    let st' := fold_left (subtractor_step 1) (enumerate_from k zs)
                 (acc, cout) in
    let n := Z.of_nat (length zs) in
    0 <= fst st' < 2 ^ (k + n)
    /\ is_bit (snd st')
    /\ fst st' + 2 ^ (k + n) * snd st'
       = acc + 2 ^ k * (cout + bits_value (map fst zs)
                        + (2 ^ n - 1 - bits_value (map snd zs))).
Proof.
  induction zs as [|[a b] zs IH]; intros k acc cout Hz Hk Hacc Hcout.
  - cbn [enumerate_from fold_left length map fst snd].
    change (bits_value []) with 0. change (2 ^ Z.of_nat 0) with 1.
    rewrite Z.add_0_r. repeat split; try lia; assumption.
  - inversion Hz as [|? ? [Ha Hb] Hz']; subst. cbn [fst snd] in Ha, Hb.
    cbn [enumerate_from fold_left].
    assert (Hnb : is_bit (1 - b)) by (destruct Hb as [-> | ->];
                                      [now right | now left]).
    assert (Hst1 : subtractor_step 1 (acc, cout) (k, (a, b))
                   = (acc + (a + (1 - b) + cout) mod 2 * 2 ^ k,
                      (a + (1 - b) + cout) / 2)).
    { unfold subtractor_step. rewrite lxor_1_bit by assumption.
      rewrite fulladder_spec by assumption.
      rewrite lor_shiftl_bit; [reflexivity | lia | lia |].
      now apply sum_bit_range. }
    rewrite Hst1.
    destruct (sum_bit_range a (1 - b) cout Ha Hnb Hcout) as [Hs Hc].
    assert (Hp : 0 < 2 ^ k) by (apply Z.pow_pos_nonneg; lia).
    assert (Hk1 : 2 ^ (k + 1) = 2 * 2 ^ k)
      by (rewrite Z.pow_add_r by lia; change (2 ^ 1) with 2; lia).
    destruct (IH (k + 1) (acc + (a + (1 - b) + cout) mod 2 * 2 ^ k)
                ((a + (1 - b) + cout) / 2) Hz') as (B & C & V).
    + lia.
    + rewrite Hk1. destruct Hs as [-> | ->]; lia.
    + exact Hc.
    + cbn [length map fst snd]. rewrite Nat2Z.inj_succ.
      replace (k + Z.succ (Z.of_nat (length zs)))
        with (k + 1 + Z.of_nat (length zs)) by lia.
      repeat split; try (apply B || exact C).
      rewrite V, !bits_value_cons, Hk1, Z.pow_succ_r by lia.
      pose proof (Z.div_mod (a + (1 - b) + cout) 2 ltac:(lia)). nia.
Qed.

End Ripple.

(** ** The circuits on bit views *)

Section Circuits.

Lemma length_zip_longest_Z {A : Type} (fill : A) (xs ys : list A) :
  Z.of_nat (length (zip_longest fill xs ys))
  = Z.max (Z.of_nat (length xs)) (Z.of_nat (length ys)).
Proof. rewrite length_zip_longest. lia. Qed.

(** [adder] returns the sum of the two numbers whose bits it is given;
    the loop runs at least once, so [i] is bound when it is read. *)
Lemma adder_bits (n m : Bits.t) :
  Forall is_bit (Bits.iter n) -> Forall is_bit (Bits.iter m) ->
  Bits.iter n <> [] ->
  adder n m = Ok (bits_value (Bits.iter n) + bits_value (Bits.iter m)).
Proof.
  intros Hn Hm Hne. unfold adder, enumerate.
  set (zs := zip_longest 0 (Bits.iter n) (Bits.iter m)).
  assert (Hzs : zs <> []).
  { subst zs. destruct (Bits.iter n); [congruence|].
    destruct (Bits.iter m); discriminate. }
  destruct (adder_loop zs 0 (mk_adder_state 0 0 0 None))
    as (B & C & _ & V & I); cbn [ad_acc ad_cin ad_cout];
    [now apply zip_longest_bits | lia | change (2 ^ 0) with 1; lia
    | now left | reflexivity |].
  rewrite (I Hzs). f_equal.
  replace (0 + Z.of_nat (length zs) - 1 + 1) with (0 + Z.of_nat (length zs))
    by lia.
  rewrite lor_shiftl_bit; [|lia | exact B | exact C].
  subst zs. rewrite zip_longest_fst, zip_longest_snd in V.
  change (2 ^ 0) with 1 in V. cbn [ad_acc ad_cin] in V. lia.
Qed.

(** [subtractor] returns the difference modulo two to the number of
    positions it walks, the length of the longer bit view. *)
Lemma subtractor_bits (n m : Bits.t) :
  Forall is_bit (Bits.iter n) -> Forall is_bit (Bits.iter m) ->
  subtractor n m
  = (bits_value (Bits.iter n) - bits_value (Bits.iter m))
    mod 2 ^ Z.max (Z.of_nat (length (Bits.iter n)))
                  (Z.of_nat (length (Bits.iter m))).
Proof.
  intros Hn Hm. unfold subtractor, enumerate.
  set (zs := zip_longest 0 (Bits.iter n) (Bits.iter m)).
  destruct (subtractor_loop zs 0 0 1) as (B & C & V);
    [now apply zip_longest_bits | lia | change (2 ^ 0) with 1; lia
    | now right |].
  destruct (fold_left (subtractor_step 1) (enumerate_from 0 zs) (0, 1))
    as [acc cout].
  cbn [fst snd] in B, C, V.
  subst zs. rewrite zip_longest_fst, zip_longest_snd in V.
  rewrite length_zip_longest_Z in B, V.
  change (2 ^ 0) with 1 in V. rewrite Z.add_0_l in B, V.
  apply Z.mod_unique with (q := cout - 1); [left; exact B | lia].
Qed.

Lemma adder_new (a b : Z) :
  0 <= a -> 0 <= b -> adder (Bits.new a) (Bits.new b) = Ok (a + b).
Proof.
  intros Ha Hb.
  rewrite adder_bits
    by (apply iter_new_bits || now apply iter_new_nonempty).
  now rewrite !iter_new_value.
Qed.

Lemma subtractor_new (a b : Z) :
  0 <= a -> 0 <= b ->
  subtractor (Bits.new a) (Bits.new b)
  = (a - b) mod 2 ^ Z.max (Z.of_nat (length (Bits.iter (Bits.new a))))
                          (Z.of_nat (length (Bits.iter (Bits.new b)))).
Proof.
  intros Ha Hb. rewrite subtractor_bits by apply iter_new_bits.
  now rewrite !iter_new_value.
Qed.

Lemma subtractor_exact (a b : Z) :
  0 <= b -> b <= a -> subtractor (Bits.new a) (Bits.new b) = a - b.
Proof.
  intros Hb Hab. rewrite subtractor_new by lia.
  apply Z.mod_small.
  pose proof (bits_value_bound _ (iter_new_bits a)) as H.
  rewrite iter_new_value in H by lia.
  split; [lia|].
  apply Z.lt_le_trans with (2 ^ Z.of_nat (length (Bits.iter (Bits.new a))));
    [lia|].
  apply Z.pow_le_mono_r; lia.
Qed.

Lemma lshift_new (n k : Z) :
  0 <= n -> 0 <= k ->
  Bits.lshift (Bits.new n) (Bits.new k) = Bits.new (n * 2 ^ k).
Proof.
  intros Hn Hk. unfold Bits.lshift.
  now rewrite !to_number_new, Z.shiftl_mul_pow2 by assumption.
Qed.

(** Invariant of the loop of [multiplier], started at bit position [k]
    with the accumulator holding [a]. *)
Lemma multiplier_loop (n : Z) (bs : list Z) :
  0 <= n -> Forall is_bit bs ->
  forall k a, 0 <= k -> 0 <= a ->
    for_in bs (multiplier_step (Bits.new n)) (Bits.new a, k)
    = Ok (Bits.new (a + n * 2 ^ k * bits_value bs),
          k + Z.of_nat (length bs)).
Proof.
  intros Hn Hbs. induction Hbs as [|b bs Hb _ IH]; intros k a Hk Ha.
  - cbn [for_in length]. change (bits_value []) with 0.
    f_equal; f_equal; [f_equal|]; lia.
  - assert (Hp : 0 < 2 ^ k) by (apply Z.pow_pos_nonneg; lia).
    assert (Hk1 : 2 ^ (k + 1) = 2 * 2 ^ k)
      by (rewrite Z.pow_add_r by lia; change (2 ^ 1) with 2; lia).
    cbn [for_in length]. unfold multiplier_step at 1.
    rewrite bits_value_cons, Nat2Z.inj_succ.
    destruct Hb as [-> | ->].
    + change (0 =? 1) with false. cbn [bind]. rewrite IH by lia.
      f_equal; f_equal; [f_equal; rewrite Hk1|]; lia.
    + change (1 =? 1) with true.
      rewrite lshift_new, adder_new by nia. cbn [bind].
      rewrite IH by nia.
      f_equal; f_equal; [f_equal; rewrite Hk1|]; lia.
Qed.

Lemma multiplier_new (a b : Z) :
  0 <= a -> 0 <= b -> multiplier (Bits.new a) (Bits.new b) = Ok (a * b).
Proof.
  intros Ha Hb. unfold multiplier.
  rewrite (multiplier_loop a _ Ha (iter_new_bits b)) by lia.
  cbn [bind fst]. rewrite iter_new_value by assumption.
  change (2 ^ 0) with 1. rewrite to_number_new by nia. f_equal. lia.
Qed.

Lemma lxor_even_1 (x : Z) : Z.lxor (2 * x) 1 = 2 * x + 1.
Proof.
  symmetry. apply Z.add_nocarry_lxor.
  rewrite land_1, Z.mul_comm. apply Z.mod_mul. lia.
Qed.

(** One round of restoring division: a bit [b] enters the remainder. *)
Lemma divider_step_spec (m q r b : Z) :
  0 < m -> 0 <= r < m -> is_bit b ->
  divider_step (Bits.new m) (q, r) b
  = if 2 * r + b >=? m then (2 * q + 1, 2 * r + b - m)
    else (2 * q, 2 * r + b).
Proof.
  intros Hm Hr Hb. unfold divider_step.
  rewrite to_number_new by lia.
  change (Z.shiftl 1 0) with 1.
  rewrite !Z.shiftl_mul_pow2 by lia. change (2 ^ 1) with 2.
  rewrite !(Z.mul_comm _ 2).
  assert (E : (if b =? 0 then 2 * r else Z.lxor (2 * r) 1) = 2 * r + b)
    by (destruct Hb as [-> | ->]; [cbn; lia | apply lxor_even_1]).
  rewrite E.
  destruct (2 * r + b >=? m) eqn:G; [|reflexivity].
  rewrite Z.geb_leb in G. apply Z.leb_le in G.
  rewrite subtractor_exact by lia. now rewrite lxor_even_1.
Qed.

(** Invariant of the loop of [divider]: after the bits [bs] (given here
    least significant first, walked most significant first) the state is
    the quotient and remainder of the number they denote. *)
Lemma divider_loop (m : Z) (bs : list Z) :
  0 < m -> Forall is_bit bs ->
  fold_left (divider_step (Bits.new m)) (rev bs) (0, 0)
  = (bits_value bs / m, bits_value bs mod m).
Proof.
  intros Hm Hbs. induction Hbs as [|b bs Hb Hbs IH].
  - cbn [rev fold_left]. change (bits_value []) with 0.
    now rewrite Z.div_0_l, Z.mod_0_l by lia.
  - cbn [rev]. rewrite fold_left_app, IH. cbn [fold_left].
    rewrite bits_value_cons. set (v := bits_value bs).
    pose proof (Z.mod_pos_bound v m Hm) as Hr.
    pose proof (Z.div_mod v m ltac:(lia)) as Hd.
    rewrite divider_step_spec by assumption.
    assert (Hb' : 0 <= b <= 1) by (destruct Hb; lia).
    destruct (2 * (v mod m) + b >=? m) eqn:G.
    + rewrite Z.geb_leb in G. apply Z.leb_le in G.
      f_equal.
      * apply Z.div_unique with (r := 2 * (v mod m) + b - m); [left|]; lia.
      * apply Z.mod_unique with (q := 2 * (v / m) + 1); [left|]; lia.
    + rewrite Z.geb_leb in G. apply Z.leb_gt in G.
      f_equal.
      * apply Z.div_unique with (r := 2 * (v mod m) + b); [left|]; lia.
      * apply Z.mod_unique with (q := 2 * (v / m)); [left|]; lia.
Qed.

Lemma divider_new (n m : Z) :
  0 <= n -> 0 < m ->
  divider (Bits.new n) (Bits.new m) = Ok (n / m, n mod m).
Proof.
  intros Hn Hm. unfold divider. rewrite to_number_new by lia.
  destruct (Z.eqb_spec m 0) as [|_]; [lia|].
  unfold Bits.reversed.
  rewrite divider_loop by (assumption || apply iter_new_bits).
  now rewrite iter_new_value.
Qed.

End Circuits.

(** ** Canonical form *)

Section Canonical.

Lemma last_cons_nonempty (b : Z) (bs : list Z) :
  bs <> [] -> List.last (b :: bs) 0 = List.last bs 0.
Proof. destruct bs; [congruence | reflexivity]. Qed.

Lemma new_last_nonzero (n : Z) :
  0 <= n -> 0 < n -> List.last (Bits.new n) 0 <> 0.
Proof.
  revert n. apply (base256_ind (fun n => 0 < n -> _)).
  - intros n Hn Hpos. rewrite new_small by assumption. cbn. lia.
  - intros n Hn IH _. rewrite new_large by assumption.
    rewrite last_cons_nonempty by apply new_nonempty.
    apply IH. apply Z.div_str_pos. lia.
Qed.

Lemma new_lower_bound (n : Z) :
  0 <= n -> 0 < n -> 256 ^ (Z.of_nat (length (Bits.new n)) - 1) <= n.
Proof.
  revert n. apply (base256_ind (fun n => 0 < n -> _)).
  - intros n Hn Hpos. rewrite new_small by assumption. cbn [length].
    change (256 ^ (Z.of_nat 1 - 1)) with 1. lia.
  - intros n Hn IH _. rewrite new_large by assumption. cbn [length].
    assert (Hq : 0 < n / 256) by (apply Z.div_str_pos; lia).
    specialize (IH Hq).
    pose proof (new_nonempty (n / 256)) as Hne.
    destruct (Bits.new (n / 256)) as [|b bs]; [congruence|].
    cbn [length] in *. rewrite !Nat2Z.inj_succ in *.
    replace (Z.succ (Z.succ (Z.of_nat (length bs))) - 1)
      with (Z.succ (Z.succ (Z.of_nat (length bs)) - 1)) by lia.
    rewrite Z.pow_succ_r by lia.
    pose proof (Z.div_mod n 256 ltac:(lia)).
    pose proof (Z.mod_pos_bound n 256 ltac:(lia)). lia.
Qed.

Lemma bytes_value_bound (bs : list Z) :
  Forall is_byte bs -> 0 <= bytes_value bs < 256 ^ Z.of_nat (length bs).
Proof.
  induction 1 as [|b bs Hb _ IH].
  - cbn. lia.
  - cbn [length bytes_value fold_right]. fold (bytes_value bs).
    rewrite Nat2Z.inj_succ, Z.pow_succ_r by lia.
    unfold is_byte in Hb. lia.
Qed.

(** No non-empty byte sequence denoting [n] is shorter than [Bits(n)]. *)
Lemma new_minimal (n : Z) (bs : list Z) :
  0 <= n -> bs <> [] -> Forall is_byte bs -> Bits.to_number bs = n ->
  (length (Bits.new n) <= length bs)%nat.
Proof.
  intros Hn Hne Hbs Hval. rewrite to_number_value in Hval.
  destruct (Z.eq_dec n 0) as [->|Hnz].
  - change (Bits.new 0) with [0].
    destruct bs; [congruence | cbn [length]; lia].
  - pose proof (new_lower_bound n Hn ltac:(lia)) as Hlow.
    pose proof (bytes_value_bound bs Hbs) as Hup. rewrite Hval in Hup.
    assert (H : 256 ^ (Z.of_nat (length (Bits.new n)) - 1)
                < 256 ^ Z.of_nat (length bs)) by lia.
    apply Z.pow_lt_mono_r_iff in H; lia.
Qed.

Lemma last_bit_set (bs : list Z) :
  Forall is_bit bs -> bs <> [] ->
  2 ^ (Z.of_nat (length bs) - 1) <= bits_value bs ->
  List.last bs 0 = 1.
Proof.
  intros Hbs Hne Hv.
  destruct (exists_last Hne) as (bs' & b & ->).
  rewrite last_last.
  apply Forall_app in Hbs. destruct Hbs as [Hbs' Hb].
  inversion Hb as [|? ? [-> | ->] _]; subst; [|reflexivity].
  rewrite bits_value_app, length_app in Hv. cbn [length] in Hv.
  change (bits_value [0]) with 0 in Hv.
  pose proof (bits_value_bound bs' Hbs') as Hup.
  replace (Z.of_nat (length bs' + 1) - 1) with (Z.of_nat (length bs')) in Hv
    by lia.
  lia.
Qed.

Lemma bits_value_msb_rev (bs : list Z) :
  bits_value_msb (rev bs) = bits_value bs.
Proof.
  unfold bits_value_msb. induction bs as [|b bs IH]; [reflexivity|].
  cbn [rev]. rewrite fold_left_app, IH. cbn [fold_left].
  rewrite bits_value_cons. lia.
Qed.

End Canonical.

(** ** The specification's claims *)

(** C1. For every non-negative [n] and positive [m],
    [divider (Bits n) (Bits m)] returns a pair [(q, r)] of non-negative
    integers with [q * m + r = n] and [0 <= r < m]; the pair is the
    Euclidean quotient and remainder. *)
Theorem divider_correct (n m : Z) :
  0 <= n -> 0 < m ->
  exists q r,
    divider (Bits.new n) (Bits.new m) = Ok (q, r)
    /\ 0 <= q /\ 0 <= r
    /\ q * m + r = n
    /\ 0 <= r < m
    /\ q = n / m /\ r = n mod m.
Proof.
  intros Hn Hm. exists (n / m), (n mod m).
  pose proof (Z.mod_pos_bound n m Hm) as Hr.
  pose proof (Z.div_mod n m ltac:(lia)) as Hd.
  assert (0 <= n / m) by (apply Z.div_pos; lia).
  rewrite divider_new by assumption.
  repeat apply conj; try reflexivity; lia.
Qed.

Lemma divider_correct_witness :
  (0 <= 513 /\ 0 < 4)
  /\ (exists q r,
       divider (Bits.new 513) (Bits.new 4) = Ok (q, r)
       /\ 0 <= q /\ 0 <= r
       /\ q * 4 + r = 513
       /\ 0 <= r < 4
       /\ q = 513 / 4 /\ r = 513 mod 4).
Proof. split; [lia | apply (divider_correct 513 4); lia]. Defined.

(** C2. For all non-negative [a] and [b], [adder (Bits a) (Bits b)] is the
    integer [a + b]; adding [Bits 0] gives back [a.to_number()]; and [adder]
    is commutative. *)
Theorem adder_correct (a b : Z) :
  0 <= a -> 0 <= b ->
  adder (Bits.new a) (Bits.new b) = Ok (a + b)
  /\ adder (Bits.new a) (Bits.new 0) = Ok (Bits.to_number (Bits.new a))
  /\ adder (Bits.new a) (Bits.new b) = adder (Bits.new b) (Bits.new a).
Proof.
  intros Ha Hb. repeat apply conj.
  - now apply adder_new.
  - rewrite adder_new, to_number_new by lia. f_equal; lia.
  - rewrite !adder_new by assumption. f_equal; lia.
Qed.

Lemma adder_correct_witness :
  (0 <= 255 /\ 0 <= 1)
  /\ (adder (Bits.new 255) (Bits.new 1) = Ok (255 + 1)
     /\ adder (Bits.new 255) (Bits.new 0) = Ok (Bits.to_number (Bits.new 255))
     /\ adder (Bits.new 255) (Bits.new 1) = adder (Bits.new 1) (Bits.new 255)).
Proof. split; [lia | apply (adder_correct 255 1); lia]. Defined.

(** C3. For all [a >= b >= 0], [subtractor (Bits a) (Bits b)] is the integer
    [a - b]; equivalently, adding [b] to it gives [a]. *)
Theorem subtractor_correct (a b : Z) :
  0 <= b -> b <= a ->
  subtractor (Bits.new a) (Bits.new b) = a - b
  /\ subtractor (Bits.new a) (Bits.new b) + b = a.
Proof.
  intros Hb Hab. rewrite subtractor_exact by assumption. split; lia.
Qed.

Lemma subtractor_correct_witness :
  (0 <= 1 /\ 1 <= 256)
  /\ (subtractor (Bits.new 256) (Bits.new 1) = 256 - 1
     /\ subtractor (Bits.new 256) (Bits.new 1) + 1 = 256).
Proof. split; [lia | apply (subtractor_correct 256 1); lia]. Defined.

(** C4. For all non-negative [a] and [b], [multiplier (Bits a) (Bits b)] is
    the integer [a * b]; it is 0 when either operand is zero, and
    multiplying by [Bits 1] gives back [a.to_number()]. *)
Theorem multiplier_correct (a b : Z) :
  0 <= a -> 0 <= b ->
  multiplier (Bits.new a) (Bits.new b) = Ok (a * b)
  /\ multiplier (Bits.new a) (Bits.new 0) = Ok 0
  /\ multiplier (Bits.new 0) (Bits.new b) = Ok 0
  /\ multiplier (Bits.new a) (Bits.new 1) = Ok (Bits.to_number (Bits.new a)).
Proof.
  intros Ha Hb. repeat apply conj.
  - now apply multiplier_new.
  - rewrite multiplier_new by lia. f_equal; lia.
  - rewrite multiplier_new by lia. reflexivity.
  - rewrite multiplier_new, to_number_new by lia. f_equal; lia.
Qed.

Lemma multiplier_correct_witness :
  (0 <= 127 /\ 0 <= 2)
  /\ (multiplier (Bits.new 127) (Bits.new 2) = Ok (127 * 2)
     /\ multiplier (Bits.new 127) (Bits.new 0) = Ok 0
     /\ multiplier (Bits.new 0) (Bits.new 2) = Ok 0
     /\ multiplier (Bits.new 127) (Bits.new 1)
        = Ok (Bits.to_number (Bits.new 127))).
Proof. split; [lia | apply (multiplier_correct 127 2); lia]. Defined.

(** C5. For every non-negative [n], [Bits(n).to_number()] is [n]. *)
Theorem to_number_roundtrip (n : Z) :
  0 <= n -> Bits.to_number (Bits.new n) = n.
Proof.
  intros Hn. unfold Bits.to_number, enumerate.
  rewrite to_number_from by lia. change (2 ^ (8 * 0)) with 1.
  rewrite bytes_value_new by assumption. lia.
Qed.

Lemma to_number_roundtrip_witness :
  (0 <= 65536)
  /\ (Bits.to_number (Bits.new 65536) = 65536).
Proof. split; [lia | apply (to_number_roundtrip 65536); lia]. Defined.

(** C6. [divider] raises [ZeroDivisionError] exactly when the divisor's
    value is zero: it does so for every dividend when the divisor is
    [Bits 0], whatever the dividend holds (the test precedes the loop, and the
    raised result carries no quotient or remainder), and on every other
    divisor it returns a pair. *)
Theorem divider_zero_division (n m : Bits.t) :
  (divider n m = Raise ZeroDivisionError <-> Bits.to_number m = 0)
  /\ divider n (Bits.new 0) = Raise ZeroDivisionError
  /\ (Bits.to_number m <> 0 -> exists q r, divider n m = Ok (q, r))
  /\ (forall e, divider n m = Raise e ->
                e = ZeroDivisionError /\ Bits.to_number m = 0).
Proof.
  unfold divider. change (Bits.to_number (Bits.new 0) =? 0) with true.
  destruct (Z.eqb_spec (Bits.to_number m) 0) as [E|E].
  - repeat apply conj.
    + tauto.
    + tauto.
    + reflexivity.
    + intros H. now elim H.
    + intros e H. inversion H. now split.
  - destruct (fold_left (divider_step m) (Bits.reversed n) (0, 0))
      as [q r] eqn:F.
    repeat apply conj.
    + discriminate.
    + intros H. now elim E.
    + reflexivity.
    + intros _. now exists q, r.
    + discriminate.
Qed.

(** C7. For every [n > 0] the forward bit sequence of [Bits n] has exactly
    [ceil(log2(n+1))] bits, which is the bit length of [n], and its highest
    bit is 1; the bit sequence of [Bits 0] is the single bit 0. *)
Theorem iter_length (n : Z) :
  0 < n ->
  Z.of_nat (length (Bits.iter (Bits.new n))) = Z.log2_up (n + 1)
  /\ Z.of_nat (length (Bits.iter (Bits.new n))) = bit_length n
  /\ List.last (Bits.iter (Bits.new n)) 0 = 1
  /\ Bits.iter (Bits.new 0) = [0].
Proof.
  intros Hn.
  pose proof (iter_new_length n ltac:(lia)) as Hlen.
  destruct (Z.eqb_spec n 0) as [|_]; [lia|].
  repeat apply conj.
  - rewrite Hlen, Z.log2_up_eqn by lia.
    replace (Z.pred (n + 1)) with n by lia. lia.
  - now rewrite bit_length_pos.
  - apply last_bit_set.
    + apply iter_new_bits.
    + apply iter_new_nonempty. lia.
    + rewrite iter_new_value, Hlen by lia.
      replace (Z.log2 n + 1 - 1) with (Z.log2 n) by lia.
      apply Z.log2_spec. lia.
  - reflexivity.
Qed.

Lemma iter_length_witness :
  (0 < 256)
  /\ (Z.of_nat (length (Bits.iter (Bits.new 256))) = Z.log2_up (256 + 1)
     /\ Z.of_nat (length (Bits.iter (Bits.new 256))) = bit_length 256
     /\ List.last (Bits.iter (Bits.new 256)) 0 = 1
     /\ Bits.iter (Bits.new 0) = [0]).
Proof. split; [lia | apply (iter_length 256); lia]. Defined.

(** C8. For every non-negative [n], [Bits n] is the canonical minimal
    encoding of [n]: its value is [n]; it has at least one byte, each within
    a byte's range;
    [Bits 0] is the single byte 0; for [n > 0] the most significant byte is
    non-zero; and no non-empty byte sequence with the same value is
    shorter. *)
Theorem new_canonical (n : Z) :
  0 <= n ->
  Bits.to_number (Bits.new n) = n
  /\ (1 <= length (Bits.new n))%nat
  /\ Forall is_byte (Bits.new n)
  /\ Bits.new 0 = [0]
  /\ (0 < n -> List.last (Bits.new n) 0 <> 0)
  /\ (forall bs, bs <> [] -> Forall is_byte bs -> Bits.to_number bs = n ->
                 (length (Bits.new n) <= length bs)%nat).
Proof.
  intros Hn. repeat apply conj.
  - now apply to_number_new.
  - pose proof (new_nonempty n). destruct (Bits.new n); [congruence|].
    cbn [length]. lia.
  - apply new_bytes_range.
  - reflexivity.
  - now apply new_last_nonzero.
  - intros bs. now apply new_minimal.
Qed.

Lemma new_canonical_witness :
  (0 <= 131070)
  /\ (Bits.to_number (Bits.new 131070) = 131070
     /\ (1 <= length (Bits.new 131070))%nat
     /\ Forall is_byte (Bits.new 131070)
     /\ Bits.new 0 = [0]
     /\ (0 < 131070 -> List.last (Bits.new 131070) 0 <> 0)
     /\ (forall bs, bs <> [] -> Forall is_byte bs ->
                    Bits.to_number bs = 131070 ->
                    (length (Bits.new 131070) <= length bs)%nat)).
Proof. split; [lia | apply (new_canonical 131070); lia]. Defined.

(** C9. For every [Bits] value, the reversed (MSB-first) bit sequence is
    exactly the reverse of the forward (LSB-first) one: reversing it again
    gives the forward sequence back, and read most significant bit first it
    denotes the number the forward sequence denotes. *)
Theorem reversed_is_reverse (v : Bits.t) :
  Bits.reversed v = rev (Bits.iter v)
  /\ rev (Bits.reversed v) = Bits.iter v
  /\ length (Bits.reversed v) = length (Bits.iter v)
  /\ bits_value_msb (Bits.reversed v) = bits_value (Bits.iter v).
Proof.
  unfold Bits.reversed. repeat apply conj.
  - reflexivity.
  - apply rev_involutive.
  - apply length_rev.
  - apply bits_value_msb_rev.
Qed.

(** C10. When [0 <= n < m], [subtractor (Bits n) (Bits m)] returns
    [(n - m) mod 2^L], where [L] is the bit length of [m], the longer
    operand; the result is non-negative and below [2^L]. *)
Theorem subtractor_wraparound (n m : Z) :
  0 <= n -> n < m ->
  subtractor (Bits.new n) (Bits.new m) = (n - m) mod 2 ^ bit_length m
  /\ 0 <= subtractor (Bits.new n) (Bits.new m) < 2 ^ bit_length m
  /\ bit_length m = Z.of_nat (length (Bits.iter (Bits.new m)))
  /\ (length (Bits.iter (Bits.new n)) <= length (Bits.iter (Bits.new m)))%nat.
Proof.
  intros Hn Hnm.
  pose proof (iter_new_length n Hn) as Ln.
  pose proof (iter_new_length m ltac:(lia)) as Lm.
  destruct (Z.eqb_spec m 0) as [|_]; [lia|].
  assert (Hle : Z.of_nat (length (Bits.iter (Bits.new n)))
                <= Z.of_nat (length (Bits.iter (Bits.new m)))).
  { rewrite Ln, Lm. pose proof (Z.log2_nonneg m).
    destruct (n =? 0); [lia|].
    pose proof (Z.log2_le_mono n m ltac:(lia)). lia. }
  assert (Hbl : bit_length m = Z.log2 m + 1) by (apply bit_length_pos; lia).
  assert (E : subtractor (Bits.new n) (Bits.new m)
              = (n - m) mod 2 ^ bit_length m).
  { rewrite subtractor_new by lia. rewrite Z.max_r by assumption.
    now rewrite Lm, Hbl. }
  assert (Hp : 0 < 2 ^ bit_length m)
    by (apply Z.pow_pos_nonneg; pose proof (Z.log2_nonneg m); lia).
  repeat apply conj.
  - exact E.
  - rewrite E. apply Z.mod_pos_bound, Hp.
  - rewrite E. apply Z.mod_pos_bound, Hp.
  - lia.
  - lia.
Qed.

Lemma subtractor_wraparound_witness :
  (0 <= 3 /\ 3 < 300)
  /\ (subtractor (Bits.new 3) (Bits.new 300) = (3 - 300) mod 2 ^ bit_length 300
     /\ 0 <= subtractor (Bits.new 3) (Bits.new 300) < 2 ^ bit_length 300
     /\ bit_length 300 = Z.of_nat (length (Bits.iter (Bits.new 300)))
     /\ (length (Bits.iter (Bits.new 3))
         <= length (Bits.iter (Bits.new 300)))%nat).
Proof. split; [lia | apply (subtractor_wraparound 3 300); lia]. Defined.

(** ** Further properties of the code *)

Section MoreEncoding.

Lemma pow_256 (k : Z) : 0 <= k -> 2 ^ (k * 8) = 256 ^ k.
Proof.
  intros Hk. rewrite Z.mul_comm, Z.pow_mul_r by lia. reflexivity.
Qed.

Lemma length_new (n : Z) :
  Z.of_nat (length (Bits.new n)) = Bits.how_many_bytes n Bits.CHUNK.
Proof.
  rewrite new_eq, length_map. apply length_range.
  pose proof (how_many_bytes_pos n). lia.
Qed.

Lemma new_negative_eq (n : Z) : n <= 255 -> Bits.new n = [n mod 256].
Proof.
  intros Hn. rewrite new_eq, how_many_bytes_small by assumption.
  change (range 1) with [0]. cbn [map].
  now rewrite Z.mul_0_l, Z.shiftr_0_r, land_255.
Qed.

Lemma bytes_value_pos (bs : list Z) :
  Forall is_byte bs -> bs <> [] -> List.last bs 0 <> 0 -> 0 < bytes_value bs.
Proof.
  induction 1 as [|b bs Hb Hbs IH]; intros Hne Hlast; [congruence|].
  cbn [bytes_value fold_right]. fold (bytes_value bs).
  unfold is_byte in Hb. destruct bs as [|b' bs'].
  - cbn in Hlast. cbn. lia.
  - rewrite last_cons_nonempty in Hlast by discriminate.
    specialize (IH ltac:(discriminate) Hlast). lia.
Qed.

(** Decoding a canonical byte sequence and encoding the number again gives
    the sequence back. *)
Lemma new_bytes_value (bs : list Z) :
  Forall is_byte bs -> bs <> [] -> List.last bs 0 <> 0 ->
  Bits.new (bytes_value bs) = bs.
Proof.
  induction 1 as [|b bs Hb Hbs IH]; intros Hne Hlast; [congruence|].
  cbn [bytes_value fold_right]. fold (bytes_value bs).
  unfold is_byte in Hb. destruct bs as [|b' bs'].
  - change (bytes_value []) with 0. rewrite Z.mul_0_r, Z.add_0_r.
    apply new_small. lia.
  - rewrite last_cons_nonempty in Hlast by discriminate.
    pose proof (bytes_value_pos _ Hbs ltac:(discriminate) Hlast) as Hpos.
    specialize (IH ltac:(discriminate) Hlast).
    set (v := bytes_value (b' :: bs')) in *.
    rewrite new_large by lia.
    replace ((b + 256 * v) mod 256) with b
      by (apply Z.mod_unique with (q := v); [left|]; lia).
    replace ((b + 256 * v) / 256) with v
      by (apply Z.div_unique with (r := b); [left|]; lia).
    now rewrite IH.
Qed.

End MoreEncoding.

(** X1. On bits, the gate is one-bit addition: both outputs are bits and
    [sum_ + 2 * cout = a + b + cin]; the two addends may be swapped. *)
Theorem fulladder_gate (a b cin : Z) :
  is_bit a -> is_bit b -> is_bit cin ->
  is_bit (fst (fulladder a b cin))
  /\ is_bit (snd (fulladder a b cin))
  /\ fst (fulladder a b cin) + 2 * snd (fulladder a b cin) = a + b + cin
  /\ fulladder a b cin = fulladder b a cin.
Proof.
  intros Ha Hb Hc.
  destruct (sum_bit_range a b cin Ha Hb Hc) as [Hs Hco].
  rewrite (fulladder_spec a b cin), (fulladder_spec b a cin) by assumption.
  cbn [fst snd]. repeat apply conj.
  - exact Hs.
  - exact Hco.
  - pose proof (Z.div_mod (a + b + cin) 2 ltac:(lia)). lia.
  - now rewrite (Z.add_comm b a).
Qed.

Lemma fulladder_gate_witness :
  (is_bit 1 /\ is_bit 0 /\ is_bit 1)
  /\ (is_bit (fst (fulladder 1 0 1))
      /\ is_bit (snd (fulladder 1 0 1))
      /\ fst (fulladder 1 0 1) + 2 * snd (fulladder 1 0 1) = 1 + 0 + 1
      /\ fulladder 1 0 1 = fulladder 0 1 1).
Proof.
  assert (H1 : is_bit 1) by (right; reflexivity).
  assert (H0 : is_bit 0) by (left; reflexivity).
  split; [auto | exact (fulladder_gate 1 0 1 H1 H0 H1)].
Defined.

(** X2. [how_many_bytes] is 1 up to 255 (negative numbers included), it is
    [floor(log2 n / 8) + 1] for every positive [n], and it is the length of
    [Bits n]. *)
Theorem how_many_bytes_formula (n : Z) :
  (n <= 255 -> Bits.how_many_bytes n Bits.CHUNK = 1)
  /\ (0 < n -> Bits.how_many_bytes n Bits.CHUNK = Z.log2 n / 8 + 1)
  /\ Z.of_nat (length (Bits.new n)) = Bits.how_many_bytes n Bits.CHUNK.
Proof.
  repeat apply conj.
  - apply how_many_bytes_small.
  - intros Hpos. assert (Hn : 0 <= n) by lia. revert n Hn Hpos.
    apply (base256_ind (fun n => 0 < n -> _)).
    + intros n Hn Hpos. rewrite how_many_bytes_small by lia.
      assert (Z.log2 n < 8)
        by (apply Z.log2_lt_pow2; [lia | change (2 ^ 8) with 256; lia]).
      pose proof (Z.log2_nonneg n). rewrite Z.div_small; lia.
    + intros n Hn IH _.
      rewrite how_many_bytes_unfold by lia.
      assert (E : (n >? 255) = true) by (apply Z.gtb_lt; lia). rewrite E.
      assert (Hq : Z.shiftr n 8 = n / 256)
        by (rewrite Z.shiftr_div_pow2 by lia; reflexivity).
      rewrite Hq, IH by (apply Z.div_str_pos; lia).
      rewrite <- Hq, Z.log2_shiftr by lia.
      pose proof (log2_above_255 n Hn).
      rewrite Z.max_r by lia.
      replace (Z.log2 n) with (Z.log2 n - 8 + 1 * 8) at 2 by lia.
      rewrite Z.div_add by lia. lia.
  - apply length_new.
Qed.

(** X3. [Bits] does not reject a negative integer: it keeps the single
    byte [n mod 256], so it builds the same value as [Bits (n mod 256)] and
    [to_number] does not give [n] back. *)
Theorem new_negative (n : Z) :
  n < 0 ->
  Bits.new n = [n mod 256]
  /\ Bits.new n = Bits.new (n mod 256)
  /\ Bits.to_number (Bits.new n) = n mod 256
  /\ Bits.to_number (Bits.new n) <> n.
Proof.
  intros Hn. pose proof (Z.mod_pos_bound n 256 ltac:(lia)) as Hm.
  rewrite (new_negative_eq n) by lia.
  rewrite (new_small (n mod 256)) by lia.
  rewrite to_number_value. cbn [bytes_value fold_right].
  repeat apply conj; try reflexivity; lia.
Qed.

Lemma new_negative_witness :
  (-1 < 0)
  /\ (Bits.new (-1) = [(-1) mod 256]
      /\ Bits.new (-1) = Bits.new ((-1) mod 256)
      /\ Bits.to_number (Bits.new (-1)) = (-1) mod 256
      /\ Bits.to_number (Bits.new (-1)) <> -1).
Proof. split; [lia | apply (new_negative (-1)); lia]. Defined.

(** X4. Little-endian layout: byte [i] of [Bits n] is the [i]-th base-256
    digit of [n], for every integer [n]. *)
Theorem new_byte_at (n : Z) (i : nat) :
  (i < length (Bits.new n))%nat ->
  nth i (Bits.new n) 0 = (n / 256 ^ Z.of_nat i) mod 256.
Proof.
  rewrite new_eq, length_map. unfold range. rewrite length_map, length_seq.
  intros Hi.
  set (f := fun i : Z => Z.land (Z.shiftr n (i * 8)) 255).
  rewrite (nth_indep _ 0 (f (Z.of_nat 0)))
    by (rewrite !length_map, length_seq; exact Hi).
  rewrite map_nth, map_nth, seq_nth by exact Hi.
  subst f. cbn beta. rewrite land_255, Nat.add_0_l.
  rewrite Z.shiftr_div_pow2, pow_256 by lia. reflexivity.
Qed.

Lemma new_byte_at_witness :
  (2 < length (Bits.new 131070))%nat
  /\ nth 2 (Bits.new 131070) 0 = (131070 / 256 ^ Z.of_nat 2) mod 256.
Proof.
  split; [vm_compute; lia | apply (new_byte_at 131070 2); vm_compute; lia].
Defined.

(** X5. For a non-empty sequence of bytes, encoding its value again gives
    the sequence back exactly when it is canonical: the single byte 0, or a
    sequence whose most significant byte is not 0. *)
Theorem new_to_number_canonical (bs : list Z) :
  bs <> [] -> Forall is_byte bs ->
  (Bits.new (Bits.to_number bs) = bs <-> bs = [0] \/ List.last bs 0 <> 0).
Proof.
  intros Hne Hbs. rewrite to_number_value.
  pose proof (bytes_value_bound bs Hbs) as Hv. split.
  - intros H. destruct (Z.eq_dec (bytes_value bs) 0) as [E|E].
    + left. rewrite E in H. now rewrite <- H.
    + right. rewrite <- H. apply new_last_nonzero; lia.
  - intros [-> | Hlast]; [reflexivity|]. now apply new_bytes_value.
Qed.

Lemma new_to_number_canonical_witness :
  ([254; 255; 1] <> [] /\ Forall is_byte [254; 255; 1])
  /\ (Bits.new (Bits.to_number [254; 255; 1]) = [254; 255; 1]
      <-> [254; 255; 1] = [0] \/ List.last [254; 255; 1] 0 <> 0).
Proof.
  assert (Hne : [254; 255; 1] <> []) by discriminate.
  assert (Hbs : Forall is_byte [254; 255; 1])
    by (repeat constructor; unfold is_byte; lia).
  split; [auto | exact (new_to_number_canonical _ Hne Hbs)].
Defined.

Section MoreBitView.

Lemma Forall_last {A : Type} (P : A -> Prop) (xs : list A) (d : A) :
  Forall P xs -> xs <> [] -> P (List.last xs d).
Proof.
  induction 1 as [|x xs Hx Hxs IH]; intros Hne; [congruence|].
  destruct xs as [|y ys]; [exact Hx|].
  change (List.last (x :: y :: ys) d) with (List.last (y :: ys) d).
  apply IH. discriminate.
Qed.

(** Whatever the integer, [Bits n] is canonical. *)
Lemma new_canonical_shape (n : Z) :
  Bits.new n = [0] \/ List.last (Bits.new n) 0 <> 0.
Proof.
  destruct (Z.le_gt_cases n 0) as [Hn|Hn].
  - rewrite new_negative_eq by lia.
    destruct (Z.eq_dec (n mod 256) 0) as [->|E]; [now left | now right].
  - right. apply new_last_nonzero; lia.
Qed.

Lemma iter_new_length_bytes (n : Z) :
  8 * (Z.of_nat (length (Bits.new n)) - 1)
  < Z.of_nat (length (Bits.iter (Bits.new n)))
  <= 8 * Z.of_nat (length (Bits.new n)).
Proof.
  pose proof (new_bytes_range n) as Hbs. pose proof (new_nonempty n) as Hne.
  destruct (iter_spec (Bits.new n) Hbs Hne) as (_ & _ & Hlen).
  rewrite Hlen.
  destruct (list_eq_dec Z.eq_dec (Bits.new n) [0]) as [E|E].
  - rewrite E. cbn [length]. lia.
  - destruct (new_canonical_shape n) as [E'|Hlast]; [congruence|].
    pose proof (Forall_last is_byte _ 0 Hbs Hne) as Hb. unfold is_byte in Hb.
    assert (bit_length (List.last (Bits.new n) 0) <= 8)
      by (apply bit_length_le; [lia | lia | change (2 ^ 8) with 256; lia]).
    rewrite bit_length_pos in * by lia.
    pose proof (Z.log2_nonneg (List.last (Bits.new n) 0)). lia.
Qed.

Lemma iter_new_nonempty_any (n : Z) : Bits.iter (Bits.new n) <> [].
Proof.
  intros E. pose proof (iter_new_length_bytes n) as H.
  rewrite E in H. cbn [length] in H.
  pose proof (new_nonempty n). destruct (Bits.new n); [congruence|].
  cbn [length] in H. lia.
Qed.

Lemma iter_new_value_any (n : Z) :
  bits_value (Bits.iter (Bits.new n)) = Bits.to_number (Bits.new n).
Proof. apply iter_spec; [apply new_bytes_range | apply new_nonempty]. Qed.

(** Position [i] of a bit sequence is binary digit [i] of its value. *)
Lemma bits_nth_testbit (bs : list Z) :
  Forall is_bit bs ->
  forall i, nth i bs 0 = Z.b2z (Z.testbit (bits_value bs) (Z.of_nat i)).
Proof.
  induction 1 as [|b bs Hb _ IH]; intros i.
  - change (bits_value []) with 0. rewrite Z.bits_0. now destruct i.
  - rewrite bits_value_cons.
    assert (Hb' : b = Z.b2z (b =? 1)) by (destruct Hb as [-> | ->]; reflexivity).
    rewrite Hb' at 2. rewrite Z.add_comm.
    destruct i as [|i].
    + change (Z.of_nat 0) with 0. rewrite Z.testbit_0_r. exact Hb'.
    + rewrite Nat2Z.inj_succ, Z.testbit_succ_r by lia. apply IH.
Qed.

End MoreBitView.

(** X6. For every integer [n], the bit view of [Bits n] is a non-empty
    sequence of 0s and 1s that denotes [Bits(n).to_number()] read least
    significant bit first, and the reversed view denotes the same number
    read most significant bit first. *)
Theorem iter_denotes_number (n : Z) :
  Forall is_bit (Bits.iter (Bits.new n))
  /\ Bits.iter (Bits.new n) <> []
  /\ bits_value (Bits.iter (Bits.new n)) = Bits.to_number (Bits.new n)
  /\ bits_value_msb (Bits.reversed (Bits.new n))
     = Bits.to_number (Bits.new n).
Proof.
  repeat apply conj.
  - apply iter_new_bits.
  - apply iter_new_nonempty_any.
  - apply iter_new_value_any.
  - unfold Bits.reversed. rewrite bits_value_msb_rev. apply iter_new_value_any.
Qed.

(** X7. [adder] never reads an unbound [i]: on the [Bits] of any two
    integers, negative ones included, it returns the sum of their values. *)
Theorem adder_never_raises (a b : Z) :
  adder (Bits.new a) (Bits.new b)
  = Ok (Bits.to_number (Bits.new a) + Bits.to_number (Bits.new b)).
Proof.
  rewrite adder_bits
    by (apply iter_new_bits || apply iter_new_nonempty_any).
  now rewrite !iter_new_value_any.
Qed.

(** X8. For [n >= 0], position [i] of the bit view of [Bits n] is binary
    digit [i] of [n]; past the end of the view the digit is 0. *)
Theorem iter_nth_testbit (n : Z) (i : nat) :
  0 <= n ->
  nth i (Bits.iter (Bits.new n)) 0 = Z.b2z (Z.testbit n (Z.of_nat i))
  /\ ((length (Bits.iter (Bits.new n)) <= i)%nat ->
      Z.testbit n (Z.of_nat i) = false).
Proof.
  intros Hn.
  pose proof (bits_nth_testbit _ (iter_new_bits n) i) as H.
  rewrite iter_new_value in H by assumption.
  split; [exact H|].
  intros Hlen. rewrite nth_overflow in H by exact Hlen.
  destruct (Z.testbit n (Z.of_nat i)); [discriminate | reflexivity].
Qed.

Lemma iter_nth_testbit_witness :
  (0 <= 257)
  /\ (nth 8 (Bits.iter (Bits.new 257)) 0 = Z.b2z (Z.testbit 257 (Z.of_nat 8))
      /\ ((length (Bits.iter (Bits.new 257)) <= 8)%nat ->
          Z.testbit 257 (Z.of_nat 8) = false)).
Proof. split; [lia | apply (iter_nth_testbit 257 8); lia]. Defined.

(** X9. The bit view fills every byte but the last: for every integer [n]
    it has more than 8 bits per byte before the last one, and at most 8 bits
    per byte. *)
Theorem iter_length_per_byte (n : Z) :
  8 * (Z.of_nat (length (Bits.new n)) - 1)
  < Z.of_nat (length (Bits.iter (Bits.new n)))
  <= 8 * Z.of_nat (length (Bits.new n)).
Proof. apply iter_new_length_bytes. Qed.

Section MoreCircuits.

Lemma upper_bound_eq (c : Byte.cls) :
  Byte.upper_bound c = 256 ^ Byte.SIZE c.
Proof. destruct c; reflexivity. Qed.

Lemma SIZE_pos (c : Byte.cls) : 1 <= Byte.SIZE c.
Proof. destruct c; cbn; lia. Qed.

Lemma length_new_le (n k : Z) :
  1 <= k -> n < 256 ^ k -> Z.of_nat (length (Bits.new n)) <= k.
Proof.
  intros Hk Hn. destruct (Z.le_gt_cases n 0) as [H|H].
  - rewrite new_negative_eq by lia. cbn [length]. lia.
  - pose proof (new_lower_bound n ltac:(lia) H) as Hlow.
    assert (Hlt : 256 ^ (Z.of_nat (length (Bits.new n)) - 1) < 256 ^ k) by lia.
    apply Z.pow_lt_mono_r_iff in Hlt; lia.
Qed.

Lemma Forall_split_at {A : Type} (P : A -> Prop) (j : nat) (xs : list A) :
  Forall P xs -> Forall P (firstn j xs) /\ Forall P (skipn j xs).
Proof.
  intros H. apply Forall_app. now rewrite firstn_skipn.
Qed.

(** Dropping the [j] low bits of a bit sequence divides its value by
    [2^j]. *)
Lemma bits_value_skipn (bs : list Z) (j : nat) :
  Forall is_bit bs -> (j <= length bs)%nat ->
  bits_value (skipn j bs) = bits_value bs / 2 ^ Z.of_nat j.
Proof.
  intros Hbs Hj.
  destruct (Forall_split_at is_bit j bs Hbs) as [Hlow _].
  pose proof (bits_value_bound _ Hlow) as Hb.
  rewrite length_firstn, Nat.min_l in Hb by exact Hj.
  rewrite <- (firstn_skipn j bs) at 2.
  rewrite bits_value_app, length_firstn, Nat.min_l by exact Hj.
  apply Z.div_unique with (r := bits_value (firstn j bs)); [left|]; lia.
Qed.

End MoreCircuits.

(** X10. For non-negative operands, [<<] builds the [Bits] of
    [a * 2^k]; shifting twice is shifting by the sum, and shifting by
    [Bits 0] changes nothing. *)
Theorem lshift_value (a j k : Z) :
  0 <= a -> 0 <= j -> 0 <= k ->
  Bits.to_number (Bits.lshift (Bits.new a) (Bits.new k)) = a * 2 ^ k
  /\ Bits.lshift (Bits.lshift (Bits.new a) (Bits.new j)) (Bits.new k)
     = Bits.lshift (Bits.new a) (Bits.new (j + k))
  /\ Bits.lshift (Bits.new a) (Bits.new 0) = Bits.new a.
Proof.
  intros Ha Hj Hk.
  assert (Hpj : 0 < 2 ^ j) by (apply Z.pow_pos_nonneg; lia).
  assert (Hpk : 0 < 2 ^ k) by (apply Z.pow_pos_nonneg; lia).
  rewrite !lshift_new by (lia || nia).
  rewrite to_number_new by nia.
  rewrite Z.pow_add_r by lia. change (2 ^ 0) with 1.
  repeat apply conj; [reflexivity | f_equal; lia | f_equal; lia].
Qed.

Lemma lshift_value_witness :
  (0 <= 5 /\ 0 <= 3 /\ 0 <= 9)
  /\ (Bits.to_number (Bits.lshift (Bits.new 5) (Bits.new 9)) = 5 * 2 ^ 9
      /\ Bits.lshift (Bits.lshift (Bits.new 5) (Bits.new 3)) (Bits.new 9)
         = Bits.lshift (Bits.new 5) (Bits.new (3 + 9))
      /\ Bits.lshift (Bits.new 5) (Bits.new 0) = Bits.new 5).
Proof. split; [lia | apply (lshift_value 5 3 9); lia]. Defined.

(** X11. A class of the [Byte] family raises [ValueError] exactly when
    [n >= 256^SIZE]; otherwise it builds [Bits n] unchanged, without
    padding, and the result has at most [SIZE] bytes.  Negative integers
    pass the check. *)
Theorem byte_new_range (c : Byte.cls) (n : Z) :
  (Byte.new c n = inl (Bits.new n) <-> n < 256 ^ Byte.SIZE c)
  /\ ((exists msg, Byte.new c n = inr (Byte.ValueError msg))
      <-> 256 ^ Byte.SIZE c <= n)
  /\ (forall v, Byte.new c n = inl v ->
                v = Bits.new n /\ Z.of_nat (length v) <= Byte.SIZE c)
  /\ (n < 0 -> Byte.new c n = inl [n mod 256]).
Proof.
  unfold Byte.new. rewrite upper_bound_eq.
  pose proof (SIZE_pos c) as Hs.
  assert (Hp : 0 < 256 ^ Byte.SIZE c) by (apply Z.pow_pos_nonneg; lia).
  destruct (n >=? 256 ^ Byte.SIZE c) eqn:G; rewrite Z.geb_leb in G.
  - apply Z.leb_le in G. split; [|split; [|split]].
    + split; [discriminate | lia].
    + split; [intros _; exact G | intros _; eexists; reflexivity].
    + discriminate.
    + lia.
  - apply Z.leb_gt in G. split; [|split; [|split]].
    + split; [intros _; exact G | reflexivity].
    + split; [intros [msg H]; discriminate | lia].
    + intros v H. injection H as <-.
      split; [reflexivity | now apply length_new_le].
    + intros Hn. now rewrite new_negative_eq by lia.
Qed.

(** X12. Widening: what a class of the family accepts, every class with a
    larger [SIZE] accepts too, and builds the same bytes. *)
Theorem byte_new_widen (c c' : Byte.cls) (n : Z) (v : Bits.t) :
  Byte.SIZE c <= Byte.SIZE c' ->
  Byte.new c n = inl v -> Byte.new c' n = inl v.
Proof.
  unfold Byte.new. rewrite !upper_bound_eq. intros Hs.
  pose proof (SIZE_pos c) as Hc.
  assert (Hle : 256 ^ Byte.SIZE c <= 256 ^ Byte.SIZE c')
    by (apply Z.pow_le_mono_r; lia).
  destruct (n >=? 256 ^ Byte.SIZE c) eqn:G; [discriminate|].
  rewrite Z.geb_leb in G. apply Z.leb_gt in G.
  assert (G' : (n >=? 256 ^ Byte.SIZE c') = false)
    by (rewrite Z.geb_leb; apply Z.leb_gt; lia).
  now rewrite G'.
Qed.

Lemma byte_new_widen_witness :
  (Byte.SIZE Byte.Byte <= Byte.SIZE Byte.Tribyte
   /\ Byte.new Byte.Byte 200 = inl [200])
  /\ Byte.new Byte.Tribyte 200 = inl [200].
Proof.
  assert (Hs : Byte.SIZE Byte.Byte <= Byte.SIZE Byte.Tribyte) by (cbn; lia).
  assert (Hb : Byte.new Byte.Byte 200 = inl [200]) by reflexivity.
  split; [auto | exact (byte_new_widen _ _ 200 [200] Hs Hb)].
Defined.

(** X13. [subtractor] undoes [adder]: for non-negative [a] and [b], taking
    either addend away from their sum gives the other. *)
Theorem adder_subtractor_inverse (a b : Z) :
  0 <= a -> 0 <= b ->
  exists s,
    adder (Bits.new a) (Bits.new b) = Ok s
    /\ subtractor (Bits.new s) (Bits.new b) = a
    /\ subtractor (Bits.new s) (Bits.new a) = b.
Proof.
  intros Ha Hb. exists (a + b).
  rewrite adder_new, !subtractor_exact by lia.
  repeat apply conj; [reflexivity | lia | lia].
Qed.

Lemma adder_subtractor_inverse_witness :
  (0 <= 255 /\ 0 <= 12)
  /\ (exists s,
        adder (Bits.new 255) (Bits.new 12) = Ok s
        /\ subtractor (Bits.new s) (Bits.new 12) = 255
        /\ subtractor (Bits.new s) (Bits.new 255) = 12).
Proof. split; [lia | apply (adder_subtractor_inverse 255 12); lia]. Defined.

(** X14. The pair [divider] returns recomposes the dividend through the
    other circuits: [multiplier] of the quotient and the divisor, then
    [adder] of the remainder, gives [n] back. *)
Theorem divider_recomposes (n m : Z) :
  0 <= n -> 0 < m ->
  exists q r p,
    divider (Bits.new n) (Bits.new m) = Ok (q, r)
    /\ multiplier (Bits.new q) (Bits.new m) = Ok p
    /\ adder (Bits.new p) (Bits.new r) = Ok n.
Proof.
  intros Hn Hm. exists (n / m), (n mod m), (n / m * m).
  pose proof (Z.mod_pos_bound n m Hm) as Hr.
  pose proof (Z.div_mod n m ltac:(lia)) as Hd.
  assert (Hq : 0 <= n / m) by (apply Z.div_pos; lia).
  rewrite divider_new, multiplier_new, adder_new by (lia || nia).
  repeat apply conj; [reflexivity | reflexivity | f_equal; lia].
Qed.

Lemma divider_recomposes_witness :
  (0 <= 512 /\ 0 < 10)
  /\ (exists q r p,
        divider (Bits.new 512) (Bits.new 10) = Ok (q, r)
        /\ multiplier (Bits.new q) (Bits.new 10) = Ok p
        /\ adder (Bits.new p) (Bits.new r) = Ok 512).
Proof. split; [lia | apply (divider_recomposes 512 10); lia]. Defined.

(** X15. [divider] undoes [multiplier]: dividing a product by one of its
    factors, when that factor is positive, gives the other factor and
    remainder 0. *)
Theorem multiplier_divider_inverse (a b : Z) :
  0 <= a -> 0 < b ->
  exists p,
    multiplier (Bits.new a) (Bits.new b) = Ok p
    /\ divider (Bits.new p) (Bits.new b) = Ok (a, 0).
Proof.
  intros Ha Hb. exists (a * b).
  rewrite multiplier_new, divider_new by (lia || nia).
  rewrite Z.div_mul, Z.mod_mul by lia. split; reflexivity.
Qed.

Lemma multiplier_divider_inverse_witness :
  (0 <= 127 /\ 0 < 6)
  /\ (exists p,
        multiplier (Bits.new 127) (Bits.new 6) = Ok p
        /\ divider (Bits.new p) (Bits.new 6) = Ok (127, 0)).
Proof. split; [lia | apply (multiplier_divider_inverse 127 6); lia]. Defined.

(** X16. The loop of [divider] keeps its invariant at every round: after
    the [k] most significant bits of a non-negative dividend, the state is
    the quotient and the remainder, modulo a positive [m], of the number
    those [k] bits denote, so the remainder stays below [m]. *)
Theorem divider_loop_invariant (n m : Z) (k : nat) :
  0 <= n -> 0 < m -> (k <= length (Bits.reversed (Bits.new n)))%nat ->
  fold_left (divider_step (Bits.new m))
            (firstn k (Bits.reversed (Bits.new n))) (0, 0)
  = ((n / 2 ^ Z.of_nat (length (Bits.reversed (Bits.new n)) - k)) / m,
     (n / 2 ^ Z.of_nat (length (Bits.reversed (Bits.new n)) - k)) mod m)
  /\ 0 <= (n / 2 ^ Z.of_nat (length (Bits.reversed (Bits.new n)) - k)) mod m
     < m.
Proof.
  intros Hn Hm. unfold Bits.reversed. rewrite length_rev. intros Hk.
  split; [|apply Z.mod_pos_bound; exact Hm].
  rewrite firstn_rev.
  set (j := (length (Bits.iter (Bits.new n)) - k)%nat).
  rewrite divider_loop
    by (assumption || apply Forall_split_at, iter_new_bits).
  rewrite bits_value_skipn by (apply iter_new_bits || (subst j; lia)).
  now rewrite iter_new_value.
Qed.

Lemma divider_loop_invariant_witness :
  (0 <= 513 /\ 0 < 4 /\ (3 <= length (Bits.reversed (Bits.new 513)))%nat)
  /\ (fold_left (divider_step (Bits.new 4))
                (firstn 3 (Bits.reversed (Bits.new 513))) (0, 0)
      = ((513 / 2 ^ Z.of_nat (length (Bits.reversed (Bits.new 513)) - 3)) / 4,
         (513 / 2 ^ Z.of_nat (length (Bits.reversed (Bits.new 513)) - 3))
         mod 4)
      /\ 0 <= (513 / 2 ^ Z.of_nat (length (Bits.reversed (Bits.new 513)) - 3))
              mod 4
         < 4).
Proof.
  assert (Hk : (3 <= length (Bits.reversed (Bits.new 513)))%nat)
    by (vm_compute; lia).
  split; [repeat split; (lia || exact Hk)
         | apply (divider_loop_invariant 513 4 3); (lia || exact Hk)].
Defined.

Section AnyInteger.

(** Every [Bits], built from whatever integer, is the [Bits] of its own
    non-negative value. *)
Lemma new_renew (n : Z) :
  0 <= Bits.to_number (Bits.new n)
  /\ Bits.new (Bits.to_number (Bits.new n)) = Bits.new n.
Proof.
  destruct (Z.le_gt_cases 0 n) as [Hn|Hn].
  - rewrite to_number_new by assumption. now split.
  - pose proof (Z.mod_pos_bound n 256 ltac:(lia)) as Hm.
    rewrite new_negative_eq by lia.
    rewrite to_number_value. cbn [bytes_value fold_right].
    rewrite Z.mul_0_r, Z.add_0_r. split; [lia | apply new_small; lia].
Qed.

End AnyInteger.

(** X17. [subtractor] never returns a negative number: on the [Bits] of any
    two integers its result is the difference of their values modulo
    [2^L], where [L] is the length of the longer bit view. *)
Theorem subtractor_modular (a b : Z) :
  subtractor (Bits.new a) (Bits.new b)
  = (Bits.to_number (Bits.new a) - Bits.to_number (Bits.new b))
    mod 2 ^ Z.max (Z.of_nat (length (Bits.iter (Bits.new a))))
                  (Z.of_nat (length (Bits.iter (Bits.new b))))
  /\ 0 <= subtractor (Bits.new a) (Bits.new b)
     < 2 ^ Z.max (Z.of_nat (length (Bits.iter (Bits.new a))))
                 (Z.of_nat (length (Bits.iter (Bits.new b)))).
Proof.
  rewrite subtractor_bits by apply iter_new_bits.
  rewrite !iter_new_value_any.
  split; [reflexivity|].
  apply Z.mod_pos_bound, Z.pow_pos_nonneg; lia.
Qed.

(** X18. [multiplier] never raises: on the [Bits] of any two integers it
    returns the product of their values. *)
Theorem multiplier_never_raises (a b : Z) :
  multiplier (Bits.new a) (Bits.new b)
  = Ok (Bits.to_number (Bits.new a) * Bits.to_number (Bits.new b)).
Proof.
  destruct (new_renew a) as [Ha Ea]. destruct (new_renew b) as [Hb Eb].
  rewrite <- Ea, <- Eb at 1.
  now rewrite multiplier_new by assumption.
Qed.

(** X19. [divider] as a whole: on the [Bits] of any two integers it raises
    [ZeroDivisionError] when the divisor's value is 0 and otherwise returns
    the Euclidean quotient and remainder of the two values. *)
Theorem divider_total (a b : Z) :
  divider (Bits.new a) (Bits.new b)
  = if Bits.to_number (Bits.new b) =? 0 then Raise ZeroDivisionError
    else Ok (Bits.to_number (Bits.new a) / Bits.to_number (Bits.new b),
             Bits.to_number (Bits.new a) mod Bits.to_number (Bits.new b)).
Proof.
  destruct (new_renew a) as [Ha Ea]. destruct (new_renew b) as [Hb Eb].
  destruct (Z.eqb_spec (Bits.to_number (Bits.new b)) 0) as [E|E].
  - unfold divider. now rewrite E.
  - rewrite <- Ea, <- Eb at 1. now rewrite divider_new by lia.
Qed.

(** The text of the [ValueError], on one rejected value. *)
Example byte_new_message :
  Byte.new Byte.Word 65536
  = inr (Byte.ValueError "65536. Byte must be in range(0, 65536)"%string).
Proof. reflexivity. Qed.
